(** * repoze.sendmail.queue: the maildir queue processor

    A shallow embedding of [src/repoze/sendmail/queue.py]:
    the message codec [_parseMessage], the per-message delivery protocol
    [_send_message], the pass driver [send_messages] and the daemon loop
    [send_messages_daemon], together with the properties of the
    specification that concern them.

    Python strings ([str], i.e. byte strings in Python 2) are [string];
    tuples of strings are [list string]; integers are [Z]; the floating
    point clock [time.time()] is a rational [Q]. *)

From Stdlib Require Import ZArith QArith Qround Ascii String List Bool Lia.
From stdpp Require Import base option gmap strings.

Import ListNotations.
Local Open Scope Z_scope.

(* ================================================================== *)
(** * Python string primitives used by the module *)
(* ================================================================== *)

Module Py.

(** [s[n:]] *)
Fixpoint drop (n : nat) (s : string) : string :=
  match n, s with
  | O, _ => s
  | S _, EmptyString => EmptyString
  | S n', String _ r => drop n' r
  end.

(** [s.startswith(p)] *)
Definition startswith (s p : string) : bool := String.prefix p s.

(** [s.partition(sep)] for a non-empty [sep]: the text before the first
    occurrence of [sep] and the text after it, [None] when [sep] does
    not occur. *)
Fixpoint partition (sep s : string) : option (string * string) :=
  if String.prefix sep s then Some (EmptyString, drop (String.length sep) s)
  else match s with
       | EmptyString => None
       | String c r =>
           match partition sep r with
           | Some (a, b) => Some (String c a, b)
           | None => None
           end
       end.

(** [s.split(sep, maxsplit)]: cut at the leftmost occurrences of [sep],
    at most [maxsplit] times ([None] is Python's default, no limit).
    [fuel] bounds the number of cuts; [String.length s] is enough since
    every cut consumes at least one character. *)
Fixpoint split_fuel (fuel : nat) (sep : string) (maxsplit : option nat)
         (s : string) : list string :=
  match fuel, maxsplit with
  | O, _ => [s]
  | _, Some O => [s]
  | S fuel', _ =>
      match partition sep s with
      | None => [s]
      | Some (a, b) => a :: split_fuel fuel' sep (Nat.pred <$> maxsplit) b
      end
  end.

Definition split (sep : string) (maxsplit : option nat) (s : string)
  : list string :=
  split_fuel (String.length s) sep maxsplit s.

(** [sep.join(l)] *)
Definition join (sep : string) (l : list string) : string :=
  String.concat sep l.

(** [c in s] for a character *)
Fixpoint contains_char (c : ascii) (s : string) : bool :=
  match s with
  | EmptyString => false
  | String d r => if Ascii.eqb c d then true else contains_char c r
  end.

(** [s.count(c)] for a character *)
Fixpoint count_char (c : ascii) (s : string) : nat :=
  match s with
  | EmptyString => O
  | String d r => (if Ascii.eqb c d then 1 else 0) + count_char c r
  end.

(** [sub in s]: [sub] occurs somewhere in [s] *)
Fixpoint contains (sub s : string) : bool :=
  if String.prefix sub s then true
  else match s with
       | EmptyString => false
       | String _ r => contains sub r
       end.

End Py.

(** The newline character, ["\n"]. *)
Definition nl : ascii := Ascii.ascii_of_nat 10.
Definition NL : string := String nl EmptyString.

(* ================================================================== *)
(** * Exceptions *)
(* ================================================================== *)

(** The Python 2 exception classes the module distinguishes.  [OSError]
    and [IOError] carry their [errno]; [SMTPResponseException] (and its
    subclasses) carries [smtp_code] and [smtp_error]; every other class
    (socket errors, [SMTPRecipientsRefused], [KeyboardInterrupt], ...)
    is [OtherException] with its class name. *)
Inductive exn : Type :=
| OSError (errno : Z)
| IOError (errno : Z)
| ValueError
| SMTPResponseException (smtp_code : Z) (smtp_error : string)
| OtherException (cls : string).

(** [errno.ENOENT], [errno.EEXIST] and two others used in examples. *)
Definition ENOENT : Z := 2.
Definition EEXIST : Z := 17.
Definition EIO : Z := 5.

(* ================================================================== *)
(** * The message codec: [QueueProcessor._parseMessage] *)
(* ================================================================== *)

(** [first, second, rest = l]: unpacking a list into exactly three
    names raises [ValueError] for any other length. *)
Definition unpack3 (l : list string) : exn + (string * string * string) :=
  match l with
  | [a; b; c] => inr (a, b, c)
  | _ => inl ValueError
  end.

Definition X_Zope_From : string := "X-Zope-From: ".
Definition X_Zope_To : string := "X-Zope-To: ".

(** Lines 126-151.  The result is [inl e] when the function raises [e]
    and [inr (fromaddr, toaddrs, rest)] when it returns. *)
Definition _parseMessage (message : string)
  : exn + (string * list string * string) :=
  let fromaddr := EmptyString in
  let toaddrs : list string := [] in
  match unpack3 (Py.split NL (Some 2%nat) message) with
  | inl ValueError => inr (fromaddr, toaddrs, message)
  | inl e => inl e
  | inr (first, second, rest) =>
      let fromaddr :=
        if Py.startswith first X_Zope_From
        then Py.drop (String.length X_Zope_From) first
        else fromaddr in
      let toaddrs :=
        if Py.startswith second X_Zope_To
        then Py.split ", " None (Py.drop (String.length X_Zope_To) second)
        else toaddrs in
      inr (fromaddr, toaddrs, rest)
  end.

(** The on-disk encoding the enqueuer produces (spec section 6). *)
Definition encode (fromaddr : string) (toaddrs : list string) (body : string)
  : string :=
  (X_Zope_From +:+ fromaddr) +:+ NL +:+
  (X_Zope_To +:+ Py.join ", " toaddrs) +:+ NL +:+ body.

(* ================================================================== *)
(** * [os.path] (posixpath) *)
(* ================================================================== *)

Module os_path.

Definition slash : ascii := "/"%char.

(** [p[:i], p[i:]] with [i = p.rfind('/') + 1], when ['/'] occurs. *)
Fixpoint rsplit (p : string) : option (string * string) :=
  match p with
  | EmptyString => None
  | String c r =>
      match rsplit r with
      | Some (h, t) => Some (String c h, t)
      | None =>
          if Ascii.eqb c slash then Some (String c EmptyString, r) else None
      end
  end.

(** [s == '/' * len(s)] *)
Fixpoint all_slashes (s : string) : bool :=
  match s with
  | EmptyString => true
  | String c r => Ascii.eqb c slash && all_slashes r
  end.

(** [s.rstrip('/')] *)
Fixpoint rstrip (s : string) : string :=
  match s with
  | EmptyString => EmptyString
  | String c r =>
      match rstrip r with
      | EmptyString =>
          if Ascii.eqb c slash then EmptyString else String c EmptyString
      | r' => String c r'
      end
  end.

(** [s.endswith('/')] *)
Fixpoint endswith_slash (s : string) : bool :=
  match s with
  | EmptyString => false
  | String c EmptyString => Ascii.eqb c slash
  | String _ r => endswith_slash r
  end.

(** [os.path.split(p)] *)
Definition split (p : string) : string * string :=
  let '(head, tail) :=
    match rsplit p with
    | Some ht => ht
    | None => (EmptyString, p)
    end in
  let head :=
    if negb (String.eqb head EmptyString) && negb (all_slashes head)
    then rstrip head else head in
  (head, tail).

(** [os.path.join(a, b)] *)
Definition join (a b : string) : string :=
  if Py.startswith b "/" then b
  else if String.eqb a EmptyString || endswith_slash a then a +:+ b
  else a +:+ "/" +:+ b.

End os_path.

(* ================================================================== *)
(** * The calls the module makes on its environment *)
(* ================================================================== *)

Inductive level : Type := ERROR | INFO.

(** An argument of a log call: a string, or [str(e)] of an exception. *)
Inductive log_arg : Type :=
| ArgStr (s : string)
| ArgExc (e : exn).

(** One call on [self.log]: the level, the format string, its
    arguments, and the exception handled when [exc_info=True]. *)
Record log_record : Type := LogRecord {
  log_level : level;
  log_fmt : string;
  log_args : list log_arg;
  log_exc_info : option exn
}.

(** Every interaction of [QueueProcessor] with the operating system,
    the clock, the mailer, the logger, the maildir and the stop flag. *)
Inductive call : Type :=
| os_stat (path : string)                 (* os.stat(path)[stat.ST_MTIME] *)
| time_time                               (* time.time() *)
| os_unlink (path : string)
| os_utime (path : string)                (* os.utime(path, None) *)
| os_link (src dst : string)              (* _os_link(src, dst) *)
| file_read (path : string)               (* open(path); read(); close() *)
| mailer_send (fromaddr : string) (toaddrs : list string) (message : string)
| log (r : log_record)
| maildir_iter                            (* iter(self.maildir) *)
| get_stopped                             (* self.__stopped *)
| time_sleep (interval : Q)
| atexit_register_stop.                   (* atexit.register(self.stop) *)

(** What a call gives back: [inl e] when it raises [e]. *)
Definition result (c : call) : Type :=
  match c with
  | os_stat _ => (exn + Z)%type
  | time_time => Q
  | os_unlink _ => (exn + unit)%type
  | os_utime _ => (exn + unit)%type
  | os_link _ _ => (exn + unit)%type
  | file_read _ => (exn + string)%type
  | mailer_send _ _ _ => (exn + unit)%type
  | log _ => unit
  | maildir_iter => (exn + list string)%type
  | get_stopped => bool
  | time_sleep _ => unit
  | atexit_register_stop => unit
  end.

(** A call together with what it gave back, as it appears in a trace. *)
Inductive event : Type :=
| EvStat (path : string) (r : exn + Z)
| EvTime (now : Q)
| EvUnlink (path : string) (r : exn + unit)
| EvUtime (path : string) (r : exn + unit)
| EvLink (src dst : string) (r : exn + unit)
| EvRead (path : string) (r : exn + string)
| EvSend (fromaddr : string) (toaddrs : list string) (message : string)
         (r : exn + unit)
| EvLog (r : log_record)
| EvIter (r : exn + list string)
| EvStopped (b : bool)
| EvSleep (interval : Q)
| EvAtexit.

Definition observe (c : call) : result c -> event :=
  match c with
  | os_stat p => EvStat p
  | time_time => EvTime
  | os_unlink p => EvUnlink p
  | os_utime p => EvUtime p
  | os_link s d => EvLink s d
  | file_read p => EvRead p
  | mailer_send f t m => EvSend f t m
  | log r => fun _ => EvLog r
  | maildir_iter => EvIter
  | get_stopped => EvStopped
  | time_sleep i => fun _ => EvSleep i
  | atexit_register_stop => fun _ => EvAtexit
  end.

(** Programs: trees of calls, each continued by its result. *)
Inductive prog (A : Type) : Type :=
| Ret (a : A)
| Vis (c : call) (k : result c -> prog A).
Arguments Ret {A} a.
Arguments Vis {A} c k.

Fixpoint prog_bind {A B} (p : prog A) (f : A -> prog B) : prog B :=
  match p with
  | Ret a => f a
  | Vis c k => Vis c (fun x => prog_bind (k x) f)
  end.

(* ================================================================== *)
(** * Python control flow: local variables, exceptions, [return] *)
(* ================================================================== *)

(** How a block of statements ends: it falls through with a value, it
    raises, or it executes [return]. *)
Inductive outcome (A : Type) : Type :=
| Normal (a : A)
| Raised (e : exn)
| Returned.
Arguments Normal {A} a.
Arguments Raised {A} e.
Arguments Returned {A}.

(** A block of statements of a function whose local variables are [L]:
    assignments survive a raised exception, as in Python. *)
Definition M (L A : Type) : Type := L -> prog (outcome A * L).

Global Instance M_ret {L} : MRet (M L) :=
  fun A a l => Ret (Normal a, l).

Global Instance M_bind {L} : MBind (M L) :=
  fun A B f m l =>
    prog_bind (m l) (fun ol =>
      match ol with
      | (Normal a, l') => f a l'
      | (Raised e, l') => Ret (Raised e, l')
      | (Returned, l') => Ret (Returned, l')
      end).

Definition raise {L A} (e : exn) : M L A := fun l => Ret (Raised e, l).
Definition return_ {L A} : M L A := fun l => Ret (Returned, l).
Definition get_locals {L} : M L L := fun l => Ret (Normal l, l).
Definition assign {L} (f : L -> L) : M L unit := fun l => Ret (Normal tt, f l).

(** A call that cannot raise. *)
Definition perform {L} (c : call) : M L (result c) :=
  fun l => Vis c (fun x => Ret (Normal x, l)).

(** A call that raises when it answers [inl e]. *)
Definition perform_raising {L A} (c : call) (as_sum : result c -> exn + A)
  : M L A :=
  fun l => Vis c (fun x => match as_sum x with
                           | inl e => Ret (Raised e, l)
                           | inr a => Ret (Normal a, l)
                           end).

(** [try: body except <classes>, e: handler]; [handler e = None] when
    the class of [e] is not one the clause names. *)
Definition try_except {L A} (body : M L A) (handler : exn -> option (M L A))
  : M L A :=
  fun l =>
    prog_bind (body l) (fun ol =>
      match ol with
      | (Raised e, l') =>
          match handler e with
          | Some h => h l'
          | None => Ret (Raised e, l')
          end
      | _ => Ret ol
      end).

Definition except_OSError {L A} (h : Z -> M L A) : exn -> option (M L A) :=
  fun e => match e with OSError errno => Some (h errno) | _ => None end.

Definition except_SMTPResponseException {L A} (h : Z -> string -> M L A)
  : exn -> option (M L A) :=
  fun e => match e with
           | SMTPResponseException code msg => Some (h code msg)
           | _ => None
           end.

(** A bare [except:] clause. *)
Definition except_all {L A} (h : exn -> M L A) : exn -> option (M L A) :=
  fun e => Some (h e).

(** Calling a function: it runs on local variables of its own; both
    [return] and falling off its end give [None] to the caller. *)
Definition invoke {L L'} (init : L') (f : M L' unit) : M L unit :=
  fun l =>
    prog_bind (f init) (fun ol =>
      match ol with
      | (Raised e, _) => Ret (Raised e, l)
      | _ => Ret (Normal tt, l)
      end).

(** The environment's calls as Python statements. *)
Definition os_stat_mtime {L} (path : string) : M L Z :=
  perform_raising (os_stat path) id.
Definition time_time_ {L} : M L Q := perform time_time.
Definition os_unlink_ {L} (path : string) : M L unit :=
  perform_raising (os_unlink path) id.
Definition os_utime_ {L} (path : string) : M L unit :=
  perform_raising (os_utime path) id.
Definition _os_link {L} (src dst : string) : M L unit :=
  perform_raising (os_link src dst) id.
Definition read_file {L} (path : string) : M L string :=
  perform_raising (file_read path) id.
Definition mailer_send_ {L} (f : string) (t : list string) (m : string)
  : M L unit :=
  perform_raising (mailer_send f t m) id.
Definition log_error {L} (fmt : string) (args : list log_arg)
           (exc_info : option exn) : M L unit :=
  perform (log (LogRecord ERROR fmt args exc_info)).
Definition log_info {L} (fmt : string) (args : list log_arg) : M L unit :=
  perform (log (LogRecord INFO fmt args None)).
Definition lift_result {L A} (r : exn + A) : M L A :=
  match r with inl e => raise e | inr a => mret a end.

(* ================================================================== *)
(** * [QueueProcessor] *)
(* ================================================================== *)

(** Line 78: the longest time sending a file is expected to take. *)
Definition MAX_SEND_TIME : Z := 60 * 60 * 3.

(** [a > b] on the rationals standing for Python floats. *)
Definition Qgtb (a b : Q) : bool := negb (Qle_bool a b).

(** The local variables of [_send_message] that its catch-all handler
    reads. *)
Record locals : Type := Locals {
  fromaddr : string;
  toaddrs : list string
}.

Definition set_parsed (f : string) (t : list string) : M locals unit :=
  assign (fun _ => Locals f t).

Definition tmp_filename_of (filename : string) : string :=
  let '(head, tail) := os_path.split filename in
  os_path.join head (".sending-" +:+ tail).

Definition rejected_filename_of (filename : string) : string :=
  let '(head, tail) := os_path.split filename in
  os_path.join head (".rejected-" +:+ tail).

(** The two messages of the catch-all handler (lines 289-296). *)
Definition catch_all_record (filename : string) (l : locals) (e : exn)
  : log_record :=
  if negb (String.eqb (fromaddr l) "") || negb (bool_decide (toaddrs l = []))
  then LogRecord ERROR "Error while sending mail from %s to %s."
         [ArgStr (fromaddr l); ArgStr (Py.join ", " (toaddrs l))] (Some e)
  else LogRecord ERROR "Error while sending mail : %s "
         [ArgStr filename] (Some e).

(** The message of the permanent-error branch (lines 254-257). *)
Definition discard_record (f : string) (t : list string) (e : exn)
  : log_record :=
  LogRecord ERROR
    "Discarding email from %s to %s due to a permanent error: %s"
    [ArgStr f; ArgStr (Py.join ", " t); ArgExc e] None.

(** The message of a delivery (lines 284-285). *)
Definition sent_record (f : string) (t : list string) : log_record :=
  LogRecord INFO "Mail from %s to %s sent."
    [ArgStr f; ArgStr (Py.join ", " t)] None.

(** Lines 166-285: the body of the outer [try] of [_send_message]. *)
Definition _send_message_body (filename tmp_filename rejected_filename : string)
  : M locals unit :=
  (* find the age of the tmp file (if it exists) *)
  age ← try_except
          (mtime ← os_stat_mtime tmp_filename;
           now ← time_time_;
           mret (Some (now - inject_Z mtime)%Q))
          (except_OSError (fun errno =>
             if errno =? ENOENT then mret None else raise (OSError errno)));
  (* if the tmp file exists, check its age *)
  match age with
  | Some age =>
      try_except
        (if Qgtb age (inject_Z MAX_SEND_TIME)
         then os_unlink_ tmp_filename
         else return_)
        (except_OSError (fun errno =>
           if errno =? ENOENT then return_ else mret tt))
  | None => mret tt
  end;;
  (* touch the message *)
  try_except (os_utime_ filename)
    (except_OSError (fun errno =>
       if errno =? ENOENT then return_ else raise (OSError errno)));;
  (* creating this hard link fails if another process is also sending *)
  try_except (_os_link filename tmp_filename)
    (except_OSError (fun errno =>
       if errno =? EEXIST then return_ else raise (OSError errno)));;
  (* read message file and send contents *)
  message ← read_file filename;
  parsed ← lift_result (_parseMessage message);
  let '(fromaddr, toaddrs, message) := parsed in
  set_parsed fromaddr toaddrs;;
  try_except (mailer_send_ fromaddr toaddrs message)
    (except_SMTPResponseException (fun smtp_code smtp_error =>
       if (500 <=? smtp_code) && (smtp_code <=? 599)
       then
         perform (log (discard_record fromaddr toaddrs
                         (SMTPResponseException smtp_code smtp_error)));;
         _os_link filename rejected_filename
       else raise (SMTPResponseException smtp_code smtp_error)));;
  try_except (os_unlink_ filename)
    (except_OSError (fun errno =>
       if errno =? ENOENT then mret tt else raise (OSError errno)));;
  try_except (os_unlink_ tmp_filename)
    (except_OSError (fun errno =>
       if errno =? ENOENT then mret tt else raise (OSError errno)));;
  perform (log (sent_record fromaddr toaddrs)).

(** Lines 153-296. *)
Definition _send_message (filename : string) : M locals unit :=
  set_parsed "" [];;
  let tmp_filename := tmp_filename_of filename in
  let rejected_filename := rejected_filename_of filename in
  try_except (_send_message_body filename tmp_filename rejected_filename)
    (except_all (fun e =>
       l ← get_locals;
       perform (log (catch_all_record filename l e)))).

(** The values of the local variables on entry; [_send_message] assigns
    them before anything else. *)
Definition fresh_locals : locals := Locals "" [].

(** Lines 119-124, the loop over the listing of the maildir. *)
Fixpoint send_messages_loop (filenames : list string) : M unit unit :=
  match filenames with
  | [] => mret tt
  | filename :: rest =>
      stopped ← perform get_stopped;
      if stopped : bool then mret tt (* break *)
      else
        invoke fresh_locals (_send_message filename);;
        send_messages_loop rest
  end.

Definition send_messages : M unit unit :=
  filenames ← perform_raising maildir_iter id;
  send_messages_loop filenames.

(** The default of the [interval] arguments, [3.0]. *)
Definition default_interval : Q := 3.

(** Lines 112-117.  An omitted argument is [None].  The loop runs until
    the stop flag is seen; [fuel] bounds the number of passes and the
    result is [None] when it runs out. *)
Fixpoint send_messages_daemon_loop (fuel : nat) (interval : Q)
  : M unit (option unit) :=
  match fuel with
  | O => mret None
  | S fuel' =>
      stopped ← perform get_stopped;
      if stopped : bool then mret (Some tt)
      else
        invoke tt send_messages;;
        stopped ← perform get_stopped;
        (if negb stopped then perform (time_sleep interval) else mret tt);;
        send_messages_daemon_loop fuel' interval
  end.

Definition send_messages_daemon (interval : option Q) (fuel : nat)
  : M unit (option unit) :=
  let interval := default default_interval interval in
  perform atexit_register_stop;;
  send_messages_daemon_loop fuel interval.

(** A [threading.Thread]: the callable it was given, the positional
    argument it was given for it (none, for [args=()]) and its name. *)
Record Thread : Type := {
  target : option Q -> nat -> M unit (option unit);
  args : option Q;
  name : string
}.

(** What the thread executes once started: [target] applied to [args]. *)
Definition Thread_run (t : Thread) : nat -> M unit (option unit) :=
  target t (args t).

(** Lines 100-110. *)
Definition send_messages_thread (interval : option Q) : Thread :=
  let interval := default default_interval interval in
  {| target := send_messages_daemon;
     args := None;
     name := "repoze.sendmail.QueueProcessorThread" |}.

(* ================================================================== *)
(** * Semantics of programs *)
(* ================================================================== *)

(** [exec p tr a]: the environment can answer the calls of [p] so that
    [p] makes exactly the calls of [tr], with those answers, and ends
    with [a].  Nothing is assumed of the environment. *)
Fixpoint exec {A} (p : prog A) (tr : list event) (a : A) : Prop :=
  match p with
  | Ret a' => tr = [] /\ a = a'
  | Vis c k => exists x tr', tr = observe c x :: tr' /\ exec (k x) tr' a
  end.

(** An environment with state [W] answers every call. *)
Definition handler (W : Type) : Type := forall c : call, W -> result c * W.

Fixpoint run {W A} (h : handler W) (p : prog A) (w : W)
  : A * W * list event :=
  match p with
  | Ret a => (a, w, [])
  | Vis c k =>
      let '(x, w1) := h c w in
      let '(a, w2, tr) := run h (k x) w1 in
      (a, w2, observe c x :: tr)
  end.

(* ================================================================== *)
(** * A filesystem, a clock and a mailer *)
(* ================================================================== *)

(** A file: its bytes and its modification time in whole seconds, as
    [os.stat(...)[stat.ST_MTIME]] reads it. *)
Record inode : Type := Inode {
  content : string;
  mtime : Z
}.

(** Directory entries name inodes; hard links are entries that name
    the same inode. *)
Record filesystem : Type := Filesystem {
  names : gmap string nat;
  inodes : gmap nat inode
}.

Definition inode_at (fs : filesystem) (i : nat) : inode :=
  default (Inode "" 0) (inodes fs !! i).

(** What the protocol cannot control: the reading of the clock at each
    step, errors of the operating system that do not depend on which
    files exist (permissions, I/O), the verdict of the mail transport,
    the listing of the maildir and the moment [stop()] is called. *)
Record environment : Type := Environment {
  clock : nat -> Q;
  fault : nat -> option exn;
  smtp : nat -> string -> list string -> string -> option exn;
  listing : nat -> list string;
  stop_called : nat -> bool
}.

(** The state of the world: the filesystem and the number of calls
    answered so far. *)
Record world : Type := World {
  fs : filesystem;
  tick : nat
}.

Definition fs_stat (f : filesystem) (path : string) : exn + Z :=
  match names f !! path with
  | None => inl (OSError ENOENT)
  | Some i => inr (mtime (inode_at f i))
  end.

Definition fs_unlink (f : filesystem) (path : string)
  : (exn + unit) * filesystem :=
  match names f !! path with
  | None => (inl (OSError ENOENT), f)
  | Some _ => (inr tt, Filesystem (delete path (names f)) (inodes f))
  end.

Definition fs_utime (f : filesystem) (path : string) (now : Q)
  : (exn + unit) * filesystem :=
  match names f !! path with
  | None => (inl (OSError ENOENT), f)
  | Some i =>
      (inr tt,
       Filesystem (names f)
         (<[i := Inode (content (inode_at f i)) (Qfloor now)]> (inodes f)))
  end.

Definition fs_link (f : filesystem) (src dst : string)
  : (exn + unit) * filesystem :=
  match names f !! src with
  | None => (inl (OSError ENOENT), f)
  | Some i =>
      match names f !! dst with
      | Some _ => (inl (OSError EEXIST), f)
      | None => (inr tt, Filesystem (<[dst := i]> (names f)) (inodes f))
      end
  end.

Definition fs_read (f : filesystem) (path : string) : exn + string :=
  match names f !! path with
  | None => inl (IOError ENOENT)
  | Some i => inr (content (inode_at f i))
  end.

(** A call that fails for a reason of the environment's leaves the
    filesystem as it was. *)
Definition faulty {A} (e : environment) (w : world)
           (r : (exn + A) * filesystem) : (exn + A) * world :=
  match fault e (tick w) with
  | Some err => (inl err, World (fs w) (S (tick w)))
  | None => (fst r, World (snd r) (S (tick w)))
  end.

Definition os_handler (e : environment) : handler world :=
  fun c =>
    match c as c0 return world -> result c0 * world with
    | os_stat p => fun w => faulty e w (fs_stat (fs w) p, fs w)
    | time_time => fun w => (clock e (tick w), World (fs w) (S (tick w)))
    | os_unlink p => fun w => faulty e w (fs_unlink (fs w) p)
    | os_utime p => fun w => faulty e w (fs_utime (fs w) p (clock e (tick w)))
    | os_link s d => fun w => faulty e w (fs_link (fs w) s d)
    | file_read p => fun w => faulty e w (fs_read (fs w) p, fs w)
    | mailer_send f t m => fun w =>
        (match smtp e (tick w) f t m with
         | Some err => inl err
         | None => inr tt
         end, World (fs w) (S (tick w)))
    | log _ => fun w => (tt, World (fs w) (S (tick w)))
    | maildir_iter => fun w =>
        faulty e w (inr (listing e (tick w)), fs w)
    | get_stopped => fun w =>
        (stop_called e (tick w), World (fs w) (S (tick w)))
    | time_sleep _ => fun w => (tt, World (fs w) (S (tick w)))
    | atexit_register_stop => fun w => (tt, World (fs w) (S (tick w)))
    end.

(** An environment in which nothing goes wrong: the clock stands at
    [now], the operating system and the mailer never fail. *)
Definition calm (now : Q) : environment :=
  {| clock := fun _ => now;
     fault := fun _ => None;
     smtp := fun _ _ _ _ => None;
     listing := fun _ => [];
     stop_called := fun _ => false |}.

(** One call of [_send_message] in a world. *)
Definition send_one (e : environment) (filename : string) (w : world)
  : outcome unit * locals * world * list event :=
  run (os_handler e) (_send_message filename fresh_locals) w.

(* ================================================================== *)
(** * Several workers on one filesystem *)
(* ================================================================== *)




(** The environment reports a missing file only when it is missing. *)
Definition honest (e : environment) : Prop :=
  forall n, fault e n <> Some (OSError ENOENT).


(** ** Phases of a worker

    What a worker may still do to the message file [F] and to the tmp
    file [T], by the point it has reached. *)
Section Phases.
Context {A : Type} (F T : string).

(** It will neither create nor remove [T], nor create [F]. *)
Fixpoint bystander (p : prog A) : Prop :=
  match p with
  | Ret _ => True
  | Vis c k =>
      match c with
      | os_unlink path => path <> T
      | os_link _ dst => dst <> T /\ dst <> F
      | _ => True
      end /\ forall x, bystander (k x)
  end.

(** It may remove [T], but creates neither [T] nor [F]. *)
Fixpoint releasing (p : prog A) : Prop :=
  match p with
  | Ret _ => True
  | Vis c k =>
      match c with
      | os_link _ dst => dst <> T /\ dst <> F
      | _ => True
      end /\ forall x, releasing (k x)
  end.

(** It holds the lock: it removes [T] only after it has removed [F]
    or found it missing. *)
Fixpoint holding (p : prog A) : Prop :=
  match p with
  | Ret _ => True
  | Vis c k =>
      match c as c0 return (result c0 -> prog A) -> Prop with
      | os_unlink path => fun k =>
          path <> T /\
          (path = F ->
           releasing (k (inr tt)) /\ releasing (k (inl (OSError ENOENT))) /\
           forall e, e <> OSError ENOENT -> bystander (k (inl e))) /\
          (path <> F -> forall x, holding (k x))
      | os_link _ dst => fun k =>
          dst <> T /\ dst <> F /\ forall x, holding (k x)
      | _ => fun k => forall x, holding (k x)
      end k
  end.




End Phases.


(* ================================================================== *)
(** * The claims that fail as stated *)
(* ================================================================== *)

(** The claim of C7 as the specification words it. *)
Definition roundtrip_claim : Prop :=
  forall (f : string) (t : list string) (b : string),
    t <> [] ->
    Py.contains X_Zope_From b = false -> Py.contains X_Zope_To b = false ->
    _parseMessage (encode f t b) = inr (f, t, b).

(* ================================================================== *)
(** * File names *)
(* ================================================================== *)

(** The last component of a path. *)
Definition tail_of (p : string) : string :=
  match os_path.rsplit p with Some (_, t) => t | None => p end.

(** The directory part [os.path.join] puts before a relative name. *)
Definition join_prefix (a : string) : string :=
  if String.eqb a EmptyString || os_path.endswith_slash a then a else a +:+ "/".

(* ================================================================== *)
(** * Traces on the filesystem *)
(* ================================================================== *)

(** What a call, as answered, does to the directory. *)
Definition apply_event (ev : event) (ns : gmap string nat) : gmap string nat :=
  match ev with
  | EvUnlink p (inr _) => delete p ns
  | EvLink s d (inr _) =>
      match ns !! s with Some i => <[d := i]> ns | None => ns end
  | _ => ns
  end.

(** The directory after a trace. *)
Definition names_after (tr : list event) (ns : gmap string nat)
  : gmap string nat :=
  fold_left (fun ns ev => apply_event ev ns) tr ns.

(** The environment injects the error [err] at some step. *)
Definition injected (e : environment) (err : exn) : Prop :=
  exists n, fault e n = Some err.

(** What an answer says about the directory it was given in: a success
    is a success of the filesystem, and a failure is either injected
    by the environment or the failure of the filesystem. *)
Definition justified (e : environment) (ns : gmap string nat)
           (cont : nat -> string) (ev : event) : Prop :=
  match ev with
  | EvStat p (inr _) | EvUtime p (inr _) | EvUnlink p (inr _) =>
      is_Some (ns !! p)
  | EvStat p (inl err) | EvUtime p (inl err) | EvUnlink p (inl err) =>
      injected e err \/ (err = OSError ENOENT /\ ns !! p = None)
  | EvLink s d (inr _) => is_Some (ns !! s) /\ ns !! d = None
  | EvLink s d (inl err) =>
      injected e err \/
      (err = OSError ENOENT /\ ns !! s = None) \/
      (err = OSError EEXIST /\ is_Some (ns !! s) /\ is_Some (ns !! d))
  | EvRead p (inr raw) => exists i, ns !! p = Some i /\ cont i = raw
  | EvRead p (inl err) =>
      injected e err \/ (err = IOError ENOENT /\ ns !! p = None)
  | _ => True
  end.

(** Every answer of a trace is justified, in the directory it was given
    in. *)
Fixpoint justified_trace (e : environment) (ns : gmap string nat)
         (cont : nat -> string) (tr : list event) : Prop :=
  match tr with
  | [] => True
  | ev :: tr' =>
      justified e ns cont ev /\
      justified_trace e (apply_event ev ns) cont tr'
  end.

(** The events before the touch of the message: they leave every file
    but the tmp file [T] alone. *)
Definition reclaim_event (T : string) (ev : event) : Prop :=
  match ev with
  | EvStat _ _ | EvTime _ | EvUtime _ _ => True
  | EvUnlink p _ => p = T
  | _ => False
  end.

(* ================================================================== *)
(** * The shape of the end of [_send_message] *)
(* ================================================================== *)

(** Which failures of the mailer are permanent (line 252). *)
Definition is_permanent (e : exn) : bool :=
  match e with
  | SMTPResponseException smtp_code _ =>
      (500 <=? smtp_code) && (smtp_code <=? 599)
  | _ => false
  end.

(** The answers to the final unlinks that let [_send_message] go on
    (lines 263-281): the file was removed, or was already missing. *)
Definition tolerated (r : exn + unit) : bool :=
  match r with
  | inr _ => true
  | inl (OSError errno) => errno =? ENOENT
  | inl _ => false
  end.

(** The shape of the calls from the unlink of the message file on. *)
Definition finalize_shape (F T f : string) (t : list string)
           (post : list event) : Prop :=
  exists r1 post1, post = EvUnlink F r1 :: post1 /\
    if tolerated r1
    then exists r2 post2, post1 = EvUnlink T r2 :: post2 /\
           if tolerated r2
           then post2 = [EvLog (sent_record f t)]
           else exists e2, r2 = inl e2 /\
                  post2 = [EvLog (catch_all_record F (Locals f t) e2)]
    else exists e1, r1 = inl e1 /\
           post1 = [EvLog (catch_all_record F (Locals f t) e1)].

(* ================================================================== *)
(** * Worlds and environments of the examples *)
(* ================================================================== *)

(** An empty maildir. *)
Definition empty_maildir : world := World (Filesystem empty empty) 0.

(** A maildir with one message, [q/cur/m1], from [a@x] to [b@x] and
    [c@x], last modified at time 100. *)
Definition one_message : world :=
  World (Filesystem {[ "q/cur/m1" := 1%nat ]}
           {[ 1%nat := Inode (encode "a@x" ["b@x"; "c@x"] "hello") 100 ]})
        0.


(** The same with a quarantine marker already there. *)
Definition one_message_rejected : world :=
  World (Filesystem {[ "q/cur/m1" := 1%nat; "q/cur/.rejected-m1" := 2%nat ]}
           {[ 1%nat := Inode (encode "a@x" ["b@x"; "c@x"] "hello") 100;
              2%nat := Inode "old" 50 ]})
        0.

(** An environment whose mailer always fails with [err]. *)
Definition mailer_fails (err : exn) (now : Q) : environment :=
  {| clock := fun _ => now;
     fault := fun _ => None;
     smtp := fun _ _ _ _ => Some err;
     listing := fun _ => [];
     stop_called := fun _ => false |}.


(* ================================================================== *)
(** * The invariant of a pool of workers *)
(* ================================================================== *)



(* ================================================================== *)
(** * Sleeps of the daemon loop *)
(* ================================================================== *)

(** The program never calls [time.sleep]. *)
Fixpoint never_sleeps {A} (p : prog A) : Prop :=
  match p with
  | Ret _ => True
  | Vis c k =>
      match c with time_sleep _ => False | _ => True end /\
      forall x, never_sleeps (k x)
  end.

Definition is_sleep (ev : event) : bool :=
  match ev with EvSleep _ => true | _ => false end.

Definition is_stop_check (ev : event) : bool :=
  match ev with EvStopped _ => true | _ => false end.

(** Every sleep of the trace lasts [q], comes right after a reading
    [False] of the stop flag, and is followed by another reading of
    the stop flag unless the trace ends there. *)
Fixpoint well_slept (q : Q) (tr : list event) : Prop :=
  match tr with
  | [] => True
  | EvStopped false :: EvSleep i :: rest =>
      i = q /\
      match rest with [] => True | ev :: _ => is_stop_check ev = true end /\
      well_slept q rest
  | EvSleep _ :: _ => False
  | _ :: rest => well_slept q rest
  end.

(* ================================================================== *)
(** * The trace of [_send_message] once the lock is taken *)
(* ================================================================== *)

(** What [_send_message] does after the mailer answered [rs]
    (lines 249-285). *)
Definition after_send (F f : string) (t : list string) (rs : exn + unit)
           (post : list event) : Prop :=
  let T := tmp_filename_of F in
  let R := rejected_filename_of F in
  match rs with
  | inr _ => finalize_shape F T f t post
  | inl e =>
      if is_permanent e
      then exists r post',
             post = EvLog (discard_record f t e) :: EvLink F R r :: post' /\
             match r with
             | inl e' => post' = [EvLog (catch_all_record F (Locals f t) e')]
             | inr _ => finalize_shape F T f t post'
             end
      else post = [EvLog (catch_all_record F (Locals f t) e)]
  end.

(** What [_send_message] does after the read of the message answered
    [r] (lines 245-250), and the local variables it ends with. *)
Definition after_read (F : string) (r : exn + string) (l : locals)
           (post : list event) : Prop :=
  match r with
  | inl e => l = fresh_locals /\
             post = [EvLog (catch_all_record F fresh_locals e)]
  | inr raw =>
      exists f t b rs post',
        _parseMessage raw = inr (f, t, b) /\ l = Locals f t /\
        post = EvSend f t b rs :: post' /\ after_send F f t rs post'
  end.

(** The events that come only after the lock is taken. *)
Definition needs_lock (F : string) (ev : event) : Prop :=
  match ev with
  | EvRead _ _ | EvSend _ _ _ _ => True
  | EvUnlink p _ => p = F
  | EvLink _ d _ => d = rejected_filename_of F
  | _ => False
  end.


(** The events of the end of [_send_message]: the two unlinks and the
    log records. *)
Definition release_event (F : string) (ev : event) : Prop :=
  match ev with
  | EvUnlink p _ => p = F \/ p = tmp_filename_of F
  | EvLog _ => True
  | _ => False
  end.

Definition is_send (ev : event) : bool :=
  match ev with EvSend _ _ _ _ => true | _ => false end.

(* ================================================================== *)
(** * The calls of [_send_message] and the files they name *)
(* ================================================================== *)

(** Every call of the program satisfies [P]. *)
Fixpoint all_calls {A} (P : call -> Prop) (p : prog A) : Prop :=
  match p with
  | Ret _ => True
  | Vis c k => P c /\ forall x, all_calls P (k x)
  end.

(** The calls [_send_message] makes for the message [F]: on the
    operating system they name the message file, its tmp file and its
    quarantine name, and nothing else. *)
Definition own_call (F : string) (c : call) : Prop :=
  match c with
  | os_stat p => p = tmp_filename_of F
  | os_unlink p => p = tmp_filename_of F \/ p = F
  | os_utime p => p = F
  | os_link s d =>
      s = F /\ (d = tmp_filename_of F \/ d = rejected_filename_of F)
  | file_read p => p = F
  | time_time | mailer_send _ _ _ | log _ => True
  | maildir_iter | get_stopped | time_sleep _ | atexit_register_stop => False
  end.

(** What a call of [_send_message] for [F] keeps of the filesystem
    [f0] it started in. *)
Definition frame_of (F : string) (f0 f : filesystem) : Prop :=
  (forall p, p <> F -> p <> tmp_filename_of F -> p <> rejected_filename_of F ->
             names f !! p = names f0 !! p) /\
  (names f !! F = None \/ names f !! F = names f0 !! F) /\
  (forall j, content (inode_at f j) = content (inode_at f0 j)) /\
  (forall j, names f0 !! F <> Some j -> inodes f !! j = inodes f0 !! j).


(* ================================================================== *)
(** * Passes and the daemon loop *)
(* ================================================================== *)

(** The events of [_send_message]: everything but the listing of the
    maildir, the readings of the stop flag, the sleeps and the
    registration with [atexit]. *)
Definition message_event (ev : event) : bool :=
  match ev with
  | EvIter _ | EvStopped _ | EvSleep _ | EvAtexit => false
  | _ => true
  end.

Definition is_iter (ev : event) : bool :=
  match ev with EvIter _ => true | _ => false end.

(** The number of passes a trace begins: its listings of the maildir. *)
Definition passes (tr : list event) : nat := length (List.filter is_iter tr).

(** The trace of handling the file names [handled] one after the
    other, each after a reading [False] of the stop flag. *)
Definition handles (handled : list string) (tr : list event) : Prop :=
  exists trs,
    tr = concat (map (cons (EvStopped false)) trs) /\
    Forall2 (fun f t => exists r, exec (_send_message f fresh_locals) t r)
            handled trs.

(** An environment in which nothing fails, the maildir lists
    [filenames] and [stop()] is called just before call number [n]. *)
Definition stopping (filenames : list string) (n : nat) (now : Q)
  : environment :=
  {| clock := fun _ => now;
     fault := fun _ => None;
     smtp := fun _ _ _ _ => None;
     listing := fun _ => filenames;
     stop_called := fun t => bool_decide (n <= t)%nat |}.

(* ================================================================== *)
(** * [QueueProcessor]: construction *)
(* ================================================================== *)

(** Python's truth value of an attribute that is [None] or a string. *)
Definition truthy (v : option string) : bool :=
  match v with
  | None => false
  | Some s => negb (String.eqb s "")
  end.

(** [SMTPMailer(...)] and [Maildir(...)]: the classes are imported
    from other modules of the package; an instance is the arguments it
    was built with, in the order they were given. *)
Inductive SMTPMailer : Type :=
| SMTPMailer_ (hostname : string) (port : Z) (username password : option string)
              (no_tls force_tls : bool).

Inductive Maildir : Type :=
| Maildir_ (path : string) (create : bool).

Module QueueProcessor.

(** Lines 85-87: the attributes set at construction. *)
Record t : Type := {
  maildir : option Maildir;
  mailer : option SMTPMailer
}.

(** Lines 89-90. *)
Definition setQueuePath (self : t) (path : string) : t :=
  {| maildir := Some (Maildir_ path true); mailer := mailer self |}.

(** Lines 94-98. *)
Definition __init__ (mailer : option SMTPMailer) (queue_path : option string)
           (maildir : option Maildir) : t :=
  let self := {| maildir := maildir; mailer := mailer |} in
  match queue_path with
  | Some path => if truthy queue_path then setQueuePath self path else self
  | None => self
  end.

End QueueProcessor.

(* ================================================================== *)
(** * [ConsoleApp] *)
(* ================================================================== *)

Module ConsoleApp.

(** [IndexError], raised by [pop] on an empty list and by [argv[0]]
    on an empty [argv]. *)
Definition IndexError : exn := OtherException "IndexError".

(** Lines 308-335; [_usage script_name] is
    [_usage % {"script_name": script_name}]. *)
Definition _usage (script_name : string) : string :=
  String.concat NL
    [script_name +:+ " [OPTIONS] path/to/maildir";
     "    ";
     "    OPTIONS:";
     "        --daemon            Run in daemon mode, periodically checking queue ";
     "                            and sending messages.  Default is to send all ";
     "                            messages in queue once and exit.";
     "                     ";
     "        --interval <#secs>  How often to check queue when in daemon mode.";
     "                            Default is 3 seconds.";
     "                               ";
     "        --hostname          Name of smtp host to use for delivery.  Default is";
     "                            localhost.";
     "                            ";
     "        --port              Which port on smtp server to deliver mail to.  ";
     "                            Default is 25.";
     "                            ";
     "        --username          Username to use to log in to smtp server.  Default";
     "                            is none.";
     "                            ";
     "        --password          Password to use to log in to smtp server.  Must be";
     "                            specified if username is specified.";
     "                            ";
     "        --force-tls         Do not connect if TLS is not available.  Not ";
     "                            enabled by default.";
     "                            ";
     "        --no-tls            Do not use TLS even if is available.  Not enabled";
     "                            by default.";
     "    "].

Section Builtins.

(** The builtins [float] and [int] applied to a string: what they
    return or raise is left open.  [float_t] is the type of Python
    floats. *)
Context {float_t : Type}.
Variable float : string -> exn + float_t.
Variable int : string -> exn + Z.

(** Lines 336-345 and 348: the attributes of the application. *)
Record t : Type := {
  script_name : string;
  _error : bool;
  daemon : bool;
  interval : Z + float_t;
  hostname : string;
  port : Z;
  username : option string;
  password : option string;
  force_tls : bool;
  no_tls : bool;
  queue_path : option string
}.

(** Assignments to one attribute. *)
Definition set__error (v : bool) (self : t) : t :=
  {| script_name := script_name self; _error := v; daemon := daemon self; interval := interval self;
     hostname := hostname self; port := port self; username := username self; password := password self;
     force_tls := force_tls self; no_tls := no_tls self; queue_path := queue_path self |}.
Definition set_daemon (v : bool) (self : t) : t :=
  {| script_name := script_name self; _error := _error self; daemon := v; interval := interval self;
     hostname := hostname self; port := port self; username := username self; password := password self;
     force_tls := force_tls self; no_tls := no_tls self; queue_path := queue_path self |}.
Definition set_interval (v : Z + float_t) (self : t) : t :=
  {| script_name := script_name self; _error := _error self; daemon := daemon self; interval := v;
     hostname := hostname self; port := port self; username := username self; password := password self;
     force_tls := force_tls self; no_tls := no_tls self; queue_path := queue_path self |}.
Definition set_hostname (v : string) (self : t) : t :=
  {| script_name := script_name self; _error := _error self; daemon := daemon self; interval := interval self;
     hostname := v; port := port self; username := username self; password := password self;
     force_tls := force_tls self; no_tls := no_tls self; queue_path := queue_path self |}.
Definition set_port (v : Z) (self : t) : t :=
  {| script_name := script_name self; _error := _error self; daemon := daemon self; interval := interval self;
     hostname := hostname self; port := v; username := username self; password := password self;
     force_tls := force_tls self; no_tls := no_tls self; queue_path := queue_path self |}.
Definition set_username (v : option string) (self : t) : t :=
  {| script_name := script_name self; _error := _error self; daemon := daemon self; interval := interval self;
     hostname := hostname self; port := port self; username := v; password := password self;
     force_tls := force_tls self; no_tls := no_tls self; queue_path := queue_path self |}.
Definition set_password (v : option string) (self : t) : t :=
  {| script_name := script_name self; _error := _error self; daemon := daemon self; interval := interval self;
     hostname := hostname self; port := port self; username := username self; password := v;
     force_tls := force_tls self; no_tls := no_tls self; queue_path := queue_path self |}.
Definition set_force_tls (v : bool) (self : t) : t :=
  {| script_name := script_name self; _error := _error self; daemon := daemon self; interval := interval self;
     hostname := hostname self; port := port self; username := username self; password := password self;
     force_tls := v; no_tls := no_tls self; queue_path := queue_path self |}.
Definition set_no_tls (v : bool) (self : t) : t :=
  {| script_name := script_name self; _error := _error self; daemon := daemon self; interval := interval self;
     hostname := hostname self; port := port self; username := username self; password := password self;
     force_tls := force_tls self; no_tls := v; queue_path := queue_path self |}.
Definition set_queue_path (v : option string) (self : t) : t :=
  {| script_name := script_name self; _error := _error self; daemon := daemon self; interval := interval self;
     hostname := hostname self; port := port self; username := username self; password := password self;
     force_tls := force_tls self; no_tls := no_tls self; queue_path := v |}.

(** Lines 336-345: the class attributes, with [script_name] as line
    348 sets it. *)
Definition new (script : string) : t :=
  {| script_name := script; _error := false; daemon := false;
     interval := inl 3; hostname := "localhost"; port := 25;
     username := None; password := None; force_tls := false;
     no_tls := false; queue_path := None |}.

(** [print >>sys.stderr, text]; [stderr] holds what was printed, one
    element for each [print] statement. *)
Definition print_stderr (text : string) (stderr : list string) : list string :=
  stderr ++ [text].

(** Lines 420-422. *)
Definition _error_usage (self : t) (stderr : list string)
  : t * list string :=
  (set__error true self, print_stderr (_usage (script_name self)) stderr).

(** Lines 368-410, the loop of [_process_args]: the arguments left, the
    application and what was printed so far.  It ends with the
    exception raised, if any. *)
Fixpoint _process_args_loop (args : list string) (self : t)
         (stderr : list string) : (exn + unit) * t * list string :=
  match args with
  | [] => (inr tt, self, stderr)
  | arg :: args =>
      if String.eqb arg "--daemon" then
        _process_args_loop args (set_daemon true self) stderr
      else if String.eqb arg "--interval" then
        match args with
        | [] =>
            (* [args.pop(0)] raises [IndexError], which is caught *)
            let '(self, stderr) := _error_usage self stderr in
            _process_args_loop args self stderr
        | value :: args =>
            match float value with
            | inr x => _process_args_loop args (set_interval (inr x) self) stderr
            | inl _ =>
                let '(self, stderr) := _error_usage self stderr in
                _process_args_loop args self stderr
            end
        end
      else if String.eqb arg "--hostname" then
        let '(self, stderr) :=
          match args with
          | [] => _error_usage self stderr
          | _ => (self, stderr)
          end in
        match args with
        | [] => (inl IndexError, self, stderr)
        | value :: args => _process_args_loop args (set_hostname value self) stderr
        end
      else if String.eqb arg "--port" then
        match args with
        | [] =>
            let '(self, stderr) := _error_usage self stderr in
            _process_args_loop args self stderr
        | value :: args =>
            match int value with
            | inr n => _process_args_loop args (set_port n self) stderr
            | inl _ =>
                let '(self, stderr) := _error_usage self stderr in
                _process_args_loop args self stderr
            end
        end
      else if String.eqb arg "--username" then
        let '(self, stderr) :=
          match args with
          | [] => _error_usage self stderr
          | _ => (self, stderr)
          end in
        match args with
        | [] => (inl IndexError, self, stderr)
        | value :: args =>
            _process_args_loop args (set_username (Some value) self) stderr
        end
      else if String.eqb arg "--password" then
        let '(self, stderr) :=
          match args with
          | [] => _error_usage self stderr
          | _ => (self, stderr)
          end in
        match args with
        | [] => (inl IndexError, self, stderr)
        | value :: args =>
            _process_args_loop args (set_password (Some value) self) stderr
        end
      else if String.eqb arg "--force-tls" then
        _process_args_loop args (set_force_tls true self) stderr
      else if String.eqb arg "--no-tls" then
        _process_args_loop args (set_no_tls true self) stderr
      else if Py.startswith arg "-" || truthy (queue_path self) then
        let '(self, stderr) := _error_usage self stderr in
        _process_args_loop args self stderr
      else
        _process_args_loop args (set_queue_path (Some arg) self) stderr
  end.

(** Lines 367-418. *)
Definition _process_args (args : list string) (self : t)
           (stderr : list string) : (exn + unit) * t * list string :=
  match _process_args_loop args self stderr with
  | (inl e, self, stderr) => (inl e, self, stderr)
  | (inr _, self, stderr) =>
      let '(self, stderr) :=
        if negb (truthy (queue_path self)) then _error_usage self stderr
        else (self, stderr) in
      let '(self, stderr) :=
        if truthy (username self)
           || (truthy (password self)
               && negb (truthy (username self) && truthy (password self)))
        then (set__error true self,
              print_stderr "Must use username and password together." stderr)
        else (self, stderr) in
      (inr tt, self, stderr)
  end.

(** Lines 347-349: [ConsoleApp(argv)].  When the constructor raises
    there is no application. *)
Definition __init__ (argv : list string) (stderr : list string)
  : (exn + t) * list string :=
  match argv with
  | [] => (inl IndexError, stderr)
  | script :: args =>
      match _process_args args (new script) stderr with
      | (inl e, _, stderr) => (inl e, stderr)
      | (inr _, self, stderr) => (inr self, stderr)
      end
  end.

(** Lines 351-365.  [None] when [main] returns at once; otherwise the
    queue processor it builds and the method it runs on it, the daemon
    loop with [fuel] passes at most. *)
Definition main (self : t) (fuel : nat)
  : option (QueueProcessor.t * M unit (option unit)) :=
  if _error self then None
  else
    let mailer := SMTPMailer_ (hostname self) (port self) (username self)
                              (password self) (no_tls self) (force_tls self) in
    let qp := QueueProcessor.__init__ (Some mailer) (queue_path self) None in
    Some (qp,
          if daemon self then send_messages_daemon None fuel
          else (send_messages;; mret (Some tt))).


End Builtins.

End ConsoleApp.

(* ================================================================== *)
(** * What [ConsoleApp] reports *)
(* ================================================================== *)

(** Whether something was printed. *)
Definition printed (out : list string) : bool :=
  match out with [] => false | _ => true end.

(** From one state of the application to a later one: what was printed
    in between was appended to [stderr], and the error flag is set if
    it was set before or if something was printed. *)
Definition reported {float_t} (self : @ConsoleApp.t float_t)
           (stderr : list string) (self' : @ConsoleApp.t float_t)
           (stderr' : list string) : Prop :=
  exists out, stderr' = stderr ++ out /\
              ConsoleApp._error self' = ConsoleApp._error self || printed out.


(** [float] and [int] of the examples: they know the string ["10"]. *)
Definition float_of_example (s : string) : exn + Q :=
  if String.eqb s "10" then inr 10%Q else inl ValueError.
Definition int_of_example (s : string) : exn + Z :=
  if String.eqb s "10" then inr 10 else inl ValueError.

(* ================================================================== *)
(** * Properties of the codec *)
(* ================================================================== *)

Section CodecLemmas.

Lemma length_app (a b : string) :
  String.length (a +:+ b) = (String.length a + String.length b)%nat.
Proof. induction a as [|c a IH]; simpl; [reflexivity | now rewrite IH]. Qed.

Lemma prefix_app (p s : string) : String.prefix p (p +:+ s) = true.
Proof.
  induction p as [|c p IH]; [now destruct s|].
  change (String c p +:+ s) with (String c (p +:+ s)).
  cbn [String.prefix]. destruct (ascii_dec c c); [exact IH | congruence].
Qed.

Lemma drop_app (p s : string) : Py.drop (String.length p) (p +:+ s) = s.
Proof. induction p as [|c p IH]; [now destruct s | exact IH]. Qed.

Lemma partition_here (sep rest : string) :
  Py.partition sep (sep +:+ rest) = Some (EmptyString, rest).
Proof.
  destruct (sep +:+ rest) eqn:E; cbn [Py.partition];
    rewrite <- E, prefix_app, drop_app; reflexivity.
Qed.

Lemma contains_char_app c (a b : string) :
  Py.contains_char c (a +:+ b)
  = Py.contains_char c a || Py.contains_char c b.
Proof.
  induction a as [|d a IH]; simpl; [reflexivity|].
  destruct (Ascii.eqb c d); [reflexivity | exact IH].
Qed.

Lemma prefix_NL_cons c (s : string) :
  String.prefix NL (String c s) = Ascii.eqb nl c.
Proof.
  unfold NL. generalize nl. intros a. cbn [String.prefix].
  destruct (ascii_dec a c) as [->|Hne].
  - rewrite Ascii.eqb_refl. now destruct s.
  - symmetry. now apply Ascii.eqb_neq.
Qed.

(** Cutting at the first newline. *)
Lemma partition_NL_app (a rest : string) :
  Py.contains_char nl a = false ->
  Py.partition NL (a +:+ NL +:+ rest) = Some (a, rest).
Proof.
  induction a as [|c a IH]; intros Hfree.
  - exact (partition_here NL rest).
  - cbn [Py.contains_char] in Hfree.
    destruct (Ascii.eqb nl c) eqn:Hc; [discriminate|].
    change (String c a +:+ NL +:+ rest) with (String c (a +:+ NL +:+ rest)).
    cbn [Py.partition]. rewrite prefix_NL_cons, Hc, (IH Hfree). reflexivity.
Qed.

Lemma partition_NL_none (s : string) :
  Py.contains_char nl s = false -> Py.partition NL s = None.
Proof.
  induction s as [|c s IH]; intros Hfree; [reflexivity|].
  cbn [Py.contains_char] in Hfree.
    destruct (Ascii.eqb nl c) eqn:Hc; [discriminate|].
  cbn [Py.partition]. rewrite prefix_NL_cons, Hc, (IH Hfree). reflexivity.
Qed.

Lemma partition_NL_some (s a b : string) :
  Py.partition NL s = Some (a, b) ->
  s = a +:+ NL +:+ b /\ Py.contains_char nl a = false.
Proof.
  revert a b. induction s as [|c s IH]; intros a b H; [discriminate|].
  cbn [Py.partition] in H. rewrite prefix_NL_cons in H.
  destruct (Ascii.eqb nl c) eqn:Hc.
  - apply Ascii.eqb_eq in Hc. subst c.
    change (Py.drop (String.length NL) (String nl s)) with s in H.
    injection H as <- <-. split; reflexivity.
  - destruct (Py.partition NL s) as [[a' b']|]; [|discriminate].
    injection H as <- <-. destruct (IH a' b' eq_refl) as [-> Hfree].
    split; [reflexivity|]. cbn [Py.contains_char]. now rewrite Hc.
Qed.

Lemma count_char_app c (a b : string) :
  Py.count_char c (a +:+ b)
  = (Py.count_char c a + Py.count_char c b)%nat.
Proof. induction a as [|d a IH]; simpl; [reflexivity | rewrite IH; lia]. Qed.

Lemma count_char_zero c (s : string) :
  Py.count_char c s = 0%nat <-> Py.contains_char c s = false.
Proof.
  induction s as [|d s IH]; simpl; [tauto|].
  destruct (Ascii.eqb c d); simpl; [split; discriminate | exact IH].
Qed.

(** [message.split('\n', 2)] by cases on the first two newlines. *)
Lemma split_NL_2 (s : string) :
  Py.split NL (Some 2%nat) s =
  match Py.partition NL s with
  | None => [s]
  | Some (a, r) =>
      match Py.partition NL r with
      | None => [a; r]
      | Some (b, c) => [a; b; c]
      end
  end.
Proof.
  unfold Py.split. destruct s as [|c0 s0]; [reflexivity|].
  change (String.length (String c0 s0)) with (S (String.length s0)).
  assert (Hl : String.length (String c0 s0) = S (String.length s0))
    by reflexivity.
  revert Hl. generalize (String c0 s0). intros s Hl.
  cbn [Py.split_fuel].
  destruct (Py.partition NL s) as [[a r]|] eqn:H1; [|reflexivity].
  apply partition_NL_some in H1 as [Hs _].
  cbn [fmap option_fmap option_map Nat.pred].
  assert (Hlen : (String.length r <= String.length s0)%nat).
  { apply (f_equal String.length) in Hs.
    rewrite !length_app in Hs. cbn [String.length NL] in Hs. lia. }
  destruct (String.length s0) as [|n] eqn:Hn.
  - destruct r; [reflexivity | cbn [String.length] in Hlen; lia].
  - cbn [Py.split_fuel].
    destruct (Py.partition NL r) as [[b c]|]; [|reflexivity].
    cbn [fmap option_fmap option_map Nat.pred]. now destruct n.
Qed.

Lemma prefix_comma_cons c (s : string) :
  String.prefix ", " (String c s)
  = Ascii.eqb ","%char c && Py.startswith s " ".
Proof.
  unfold Py.startswith. cbn [String.prefix].
  destruct (ascii_dec ","%char c) as [<-|Hne].
  - reflexivity.
  - apply Ascii.eqb_neq in Hne. now rewrite Hne.
Qed.

Lemma startswith_space_app (a b : string) :
  Py.startswith a " " = false -> Py.startswith b " " = false ->
  Py.startswith (a +:+ b) " " = false.
Proof.
  unfold Py.startswith. destruct a as [|c a]; intros H1 H2; [exact H2|].
  change (String c a +:+ b) with (String c (a +:+ b)).
  cbn [String.prefix] in *. destruct (ascii_dec " "%char c); [|reflexivity].
  destruct a; discriminate.
Qed.

(** Cutting at the first [", "]. *)
Lemma partition_comma_app (a rest : string) :
  Py.contains ", " a = false ->
  Py.partition ", " (a +:+ ", " +:+ rest) = Some (a, rest).
Proof.
  induction a as [|c a IH]; intros Hfree;
    [exact (partition_here ", " rest)|].
  cbn [Py.contains] in Hfree.
  destruct (String.prefix ", " (String c a)) eqn:Hp; [discriminate|].
  change (String c a +:+ ", " +:+ rest)
    with (String c (a +:+ ", " +:+ rest)).
  cbn [Py.partition].
  assert (Hq : String.prefix ", " (String c (a +:+ ", " +:+ rest)) = false).
  { rewrite prefix_comma_cons in Hp |- *.
    destruct (Ascii.eqb ","%char c); [|reflexivity]. simpl in Hp |- *.
    now apply startswith_space_app. }
  rewrite Hq, (IH Hfree). reflexivity.
Qed.

Lemma partition_comma_none (s : string) :
  Py.contains ", " s = false -> Py.partition ", " s = None.
Proof.
  induction s as [|c s IH]; intros Hfree; [reflexivity|].
  cbn [Py.contains] in Hfree.
  destruct (String.prefix ", " (String c s)) eqn:Hp; [discriminate|].
  cbn [Py.partition]. rewrite Hp, (IH Hfree). reflexivity.
Qed.

(** [", ".join(l).split(", ")] gives [l] back. *)
Lemma split_join_fuel (l : list string) (fuel : nat) :
  l <> [] ->
  Forall (fun t => Py.contains ", " t = false) l ->
  (String.length (Py.join ", " l) <= fuel)%nat ->
  Py.split_fuel fuel ", " None (Py.join ", " l) = l.
Proof.
  revert fuel. induction l as [|t l IH]; intros fuel Hne Hall Hlen;
    [congruence|].
  inversion Hall as [|? ? Ht Hl]; subst.
  destruct l as [|t' l].
  - cbn [Py.join String.concat] in *.
    destruct fuel; [reflexivity|]. cbn [Py.split_fuel].
    now rewrite (partition_comma_none _ Ht).
  - change (Py.join ", " (t :: t' :: l))
      with (t +:+ ", " +:+ Py.join ", " (t' :: l)) in *.
    rewrite (length_app t), (length_app ", ") in Hlen.
    change (String.length ", ") with 2%nat in Hlen.
    destruct fuel as [|fuel]; [lia|]. cbn [Py.split_fuel].
    rewrite (partition_comma_app _ _ Ht). f_equal.
    apply IH; [discriminate | assumption | lia].
Qed.

Lemma join_no_newline (l : list string) :
  Forall (fun t => Py.contains_char nl t = false) l ->
  Py.contains_char nl (Py.join ", " l) = false.
Proof.
  induction l as [|t l IH]; intros Hall; [reflexivity|].
  inversion Hall as [|? ? Ht Hl]; subst. destruct l as [|t' l]; [exact Ht|].
  change (Py.join ", " (t :: t' :: l))
    with (t +:+ ", " +:+ Py.join ", " (t' :: l)).
  rewrite !contains_char_app, Ht, (IH Hl). reflexivity.
Qed.

End CodecLemmas.

(** C6.  [_parseMessage] raises on no input.  An input with fewer than
    two newlines comes back whole as the body, with an empty sender and
    no recipients.  On an input with two header lines, each of the two
    fields is filled when its line begins with its marker and is left
    empty otherwise, independently of the other, and the body is what
    follows the second newline. *)
Theorem parseMessage_total_and_degrades (message : string) :
  (exists f t b, _parseMessage message = inr (f, t, b)) /\
  ((Py.count_char nl message < 2)%nat ->
   _parseMessage message = inr (EmptyString, [], message)) /\
  (forall first second rest,
     message = first +:+ NL +:+ second +:+ NL +:+ rest ->
     Py.contains_char nl first = false ->
     Py.contains_char nl second = false ->
     _parseMessage message =
     inr (if Py.startswith first "X-Zope-From: "
          then Py.drop 13 first else EmptyString,
          if Py.startswith second "X-Zope-To: "
          then Py.split ", " None (Py.drop 11 second) else [],
          rest)).
Proof.
  unfold _parseMessage. rewrite split_NL_2. split; [|split].
  - destruct (Py.partition NL message) as [[a r]|]; [|cbn; eauto].
    destruct (Py.partition NL r) as [[b c]|]; cbn; eauto.
  - intros Hcount.
    destruct (Py.partition NL message) as [[a r]|] eqn:H1; [|reflexivity].
    apply partition_NL_some in H1 as [Hm _].
    assert (Hr : Py.contains_char nl r = false).
    { apply count_char_zero. rewrite Hm, !count_char_app in Hcount.
      change (Py.count_char nl NL) with 1%nat in Hcount. lia. }
    now rewrite (partition_NL_none _ Hr).
  - intros first second rest -> Hf Hs.
    rewrite (partition_NL_app _ _ Hf), (partition_NL_app _ _ Hs).
    reflexivity.
Qed.

(** C7, as stated, fails: a recipient that contains [", "] is cut in
    two by the decoder (and a newline in an address moves the line
    boundaries). *)
Lemma roundtrip_claim_fails : ~ roundtrip_claim.
Proof.
  intros H. specialize (H "a@x" ["b, c"] "hello").
  assert (Hd : _parseMessage (encode "a@x" ["b, c"] "hello")
               = inr ("a@x", ["b"; "c"], "hello")) by (vm_compute; reflexivity).
  rewrite Hd in H.
  assert (He : @inr exn _ ("a@x", ["b"; "c"], "hello")
               = inr ("a@x", ["b, c"], "hello")).
  { apply H; [discriminate | vm_compute; reflexivity ..]. }
  discriminate He.
Qed.

(** C7, amended.  When the sender contains no newline and no recipient
    contains a newline or the separator [", "], and there is at least
    one recipient, decoding the two-line header encoding gives back the
    sender, the recipients and the body, whatever the body is. *)
Theorem roundtrip_clean_addresses (f : string) (t : list string) (b : string) :
  t <> [] ->
  Py.contains_char nl f = false ->
  Forall (fun a => Py.contains_char nl a = false) t ->
  Forall (fun a => Py.contains ", " a = false) t ->
  _parseMessage (encode f t b) = inr (f, t, b).
Proof.
  intros Hne Hf Hnl Hsep. unfold _parseMessage, encode. rewrite split_NL_2.
  assert (H1 : Py.contains_char nl (X_Zope_From +:+ f) = false)
    by (rewrite contains_char_app, Hf; reflexivity).
  assert (H2 : Py.contains_char nl (X_Zope_To +:+ Py.join ", " t) = false)
    by (rewrite contains_char_app, (join_no_newline _ Hnl); reflexivity).
  rewrite (partition_NL_app _ _ H1), (partition_NL_app _ _ H2).
  cbn [unpack3]. unfold Py.startswith. rewrite !prefix_app, !drop_app.
  unfold Py.split. now rewrite split_join_fuel.
Qed.

Lemma roundtrip_clean_addresses_witness :
  _parseMessage (encode "a@x" ["b@x"; "c@x"] "hello")
  = inr ("a@x", ["b@x"; "c@x"], "hello").
Proof.
  apply (roundtrip_clean_addresses "a@x" ["b@x"; "c@x"] "hello").
  - discriminate.
  - vm_compute; reflexivity.
  - repeat constructor.
  - repeat constructor.
Defined.

(* ================================================================== *)
(** * Properties of programs in general *)
(* ================================================================== *)

Lemma exec_prog_bind {A B} (p : prog A) (f : A -> prog B) tr b :
  exec (prog_bind p f) tr b <->
  exists tr1 tr2 a, tr = tr1 ++ tr2 /\ exec p tr1 a /\ exec (f a) tr2 b.
Proof.
  revert tr. induction p as [a|c k IH]; intros tr; simpl.
  - split.
    + intros H. exists [], tr, a. auto.
    + intros (tr1 & tr2 & a' & -> & [-> ->] & H). exact H.
  - split.
    + intros (x & tr' & -> & H). apply IH in H as (tr1 & tr2 & a & -> & H1 & H2).
      exists (observe c x :: tr1), tr2, a. split; [reflexivity|]. eauto.
    + intros (tr1 & tr2 & a & -> & (x & tr' & -> & H1) & H2).
      exists x, (tr' ++ tr2). split; [reflexivity|]. apply IH. eauto 6.
Qed.

(** Every run against a handler is one of the behaviours [exec]
    describes. *)
Lemma run_exec {W A} (h : handler W) (p : prog A) w a w' tr :
  run h p w = (a, w', tr) -> exec p tr a.
Proof.
  revert w tr. induction p as [a0|c k IH]; intros w tr; simpl.
  - intros [= <- <- <-]. auto.
  - destruct (h c w) as [x w1] eqn:Hh.
    destruct (run h (k x) w1) as [[a1 w2] tr1] eqn:Hr.
    intros [= <- <- <-]. exists x, tr1. split; [reflexivity|]. eauto.
Qed.

(* ================================================================== *)
(** * Properties of [_send_message] under any environment *)
(* ================================================================== *)

#[local] Arguments _parseMessage : simpl never.
#[local] Arguments Qgtb : simpl never.
#[local] Arguments tmp_filename_of : simpl never.
#[local] Arguments rejected_filename_of : simpl never.
#[local] Arguments catch_all_record : simpl never.
#[local] Arguments discard_record : simpl never.
#[local] Arguments sent_record : simpl never.
#[local] Arguments Z.eqb : simpl never.
#[local] Arguments Z.leb : simpl never.

(** Unfolding the control flow of a program, and nothing else. *)
Ltac prog_norm_in H :=
  lazy beta iota zeta delta
    [prog_bind mbind mret M_bind M_ret try_except raise return_
     get_locals assign perform perform_raising invoke lift_result
     except_OSError except_SMTPResponseException except_all id
     os_stat_mtime time_time_ os_unlink_ os_utime_ _os_link read_file
     mailer_send_ log_error log_info set_parsed
     _send_message _send_message_body] in H;
  cbn [exec observe] in H.

Ltac prog_norm :=
  lazy beta iota zeta delta
    [prog_bind mbind mret M_bind M_ret try_except raise return_
     get_locals assign perform perform_raising invoke lift_result
     except_OSError except_SMTPResponseException except_all id
     os_stat_mtime time_time_ os_unlink_ os_utime_ _os_link read_file
     mailer_send_ log_error log_info set_parsed
     _send_message _send_message_body];
  cbn [exec observe].


(** The test a stuck program is waiting on. *)
Ltac innermost_scrutinee x :=
  lazymatch x with
  | context [match ?y with _ => _ end] => innermost_scrutinee y
  | _ => x
  end.

(** One step of the case analysis of a behaviour: the next call and its
    answer, or the test the program is waiting on. *)
Ltac exec_step H :=
  prog_norm_in H;
  lazymatch type of H with
  | exists _, _ =>
      let x := fresh "x" in let tr := fresh "tr" in let E := fresh "E" in
      destruct H as (x & tr & E & H);
      try (let t := type of x in
           let t' := eval hnf in t in
           match t' with unit => destruct x end);
      simplify_eq
  | _ /\ _ =>
      let E1 := fresh "E" in let E2 := fresh "E" in
      destruct H as [E1 E2]; simplify_eq
  | context [match ?x with _ => _ end] =>
      let y := innermost_scrutinee x in destruct y eqn:?
  end.

Ltac exec_all H := repeat exec_step H.

Lemma send_message_outcome (F : string) tr o l :
  exec (_send_message F fresh_locals) tr (o, l) ->
  o = Normal tt \/ o = Returned.
Proof. intros H. exec_all H; auto. Qed.

(* ================================================================== *)
(** * The three file names of a message are distinct *)
(* ================================================================== *)

Section Paths.

Import os_path.

Lemma split_tail (p : string) : snd (split p) = tail_of p.
Proof.
  unfold split, tail_of. destruct (rsplit p) as [[h t]|]; reflexivity.
Qed.

Lemma rsplit_none (p : string) :
  rsplit p = None <-> Py.contains_char slash p = false.
Proof.
  induction p as [|c p IH]; cbn [rsplit Py.contains_char]; [tauto|].
  rewrite (Ascii.eqb_sym slash c).
  destruct (rsplit p) as [[h t]|]; destruct (Ascii.eqb c slash);
    intuition discriminate.
Qed.

Lemma rsplit_tail_noslash (p h t : string) :
  rsplit p = Some (h, t) -> Py.contains_char slash t = false.
Proof.
  revert h t. induction p as [|c p IH]; intros h t; cbn [rsplit];
    [discriminate|].
  destruct (rsplit p) as [[h' t']|] eqn:E.
  - intros [= <- <-]. eauto.
  - destruct (Ascii.eqb c slash); [|discriminate].
    intros [= <- <-]. now apply rsplit_none.
Qed.

Lemma endswith_slash_app (a : string) :
  endswith_slash (a +:+ "/") = true.
Proof.
  induction a as [|c a IH]; [reflexivity|].
  change (String c a +:+ "/") with (String c (a +:+ "/")).
  cbn [endswith_slash]. destruct (a +:+ "/") eqn:E; [|exact IH].
  destruct a; discriminate.
Qed.

(** Splitting a name made of a directory part and a slash-free
    last component. *)
Lemma rsplit_app (h t : string) :
  endswith_slash h = true -> Py.contains_char slash t = false ->
  rsplit (h +:+ t) = Some (h, t).
Proof.
  intros Hh Ht. induction h as [|c h IH]; [discriminate|].
  change (String c h +:+ t) with (String c (h +:+ t)). cbn [rsplit].
  destruct h as [|c' h].
  - cbn [endswith_slash] in Hh. change ("" +:+ t) with t.
    apply rsplit_none in Ht. now rewrite Ht, Hh.
  - now rewrite IH.
Qed.

Lemma app_assoc_str (a b c : string) : (a +:+ b) +:+ c = a +:+ b +:+ c.
Proof.
  induction a as [|x a IH]; [reflexivity|].
  change (String x ((a +:+ b) +:+ c) = String x (a +:+ b +:+ c)).
  now rewrite IH.
Qed.

Lemma join_dot (a s : string) :
  join a (String "."%char s) = join_prefix a +:+ String "."%char s.
Proof.
  unfold join, join_prefix, Py.startswith. cbn [String.prefix].
  destruct (ascii_dec "/"%char "."%char) as [E|_]; [discriminate E|].
  destruct (String.eqb a EmptyString || endswith_slash a);
    [reflexivity | symmetry; exact (app_assoc_str a "/" _)].
Qed.

Lemma join_prefix_cases (a : string) :
  join_prefix a = EmptyString \/ endswith_slash (join_prefix a) = true.
Proof.
  unfold join_prefix. destruct (String.eqb_spec a EmptyString) as [->|_];
    [now left|]. cbn [orb].
  destruct (endswith_slash a) eqn:E; right; [exact E|].
  apply endswith_slash_app.
Qed.

Lemma tail_of_prefixed (pre t : string) :
  pre = EmptyString \/ endswith_slash pre = true ->
  Py.contains_char slash t = false ->
  tail_of (pre +:+ t) = t.
Proof.
  unfold tail_of. intros [->|Hpre] Ht.
  - change ("" +:+ t) with t. apply rsplit_none in Ht. now rewrite Ht.
  - now rewrite rsplit_app.
Qed.

Lemma tail_noslash (p : string) : Py.contains_char slash (tail_of p) = false.
Proof.
  unfold tail_of. destruct (rsplit p) as [[h t]|] eqn:E.
  - eapply rsplit_tail_noslash; eauto.
  - now apply rsplit_none.
Qed.

Lemma app_inv_head_str (p a b : string) : p +:+ a = p +:+ b -> a = b.
Proof. induction p as [|c p IH]; simpl; [auto | intros [= H]; auto]. Qed.

(** [tmp_filename] and [rejected_filename], in terms of the split. *)
Lemma tmp_filename_eq (F : string) :
  tmp_filename_of F
  = join_prefix (fst (split F)) +:+ ".sending-" +:+ tail_of F.
Proof.
  unfold tmp_filename_of. rewrite <- split_tail.
  destruct (split F) as [h t]. exact (join_dot h _).
Qed.

Lemma rejected_filename_eq (F : string) :
  rejected_filename_of F
  = join_prefix (fst (split F)) +:+ ".rejected-" +:+ tail_of F.
Proof.
  unfold rejected_filename_of. rewrite <- split_tail.
  destruct (split F) as [h t]. exact (join_dot h _).
Qed.

Lemma tmp_ne_rejected (F : string) :
  tmp_filename_of F <> rejected_filename_of F.
Proof.
  rewrite tmp_filename_eq, rejected_filename_eq.
  intros H. apply app_inv_head_str in H. discriminate H.
Qed.

Lemma dotted_ne_message (F lbl : string) :
  Py.contains_char slash lbl = false -> lbl <> EmptyString ->
  join_prefix (fst (split F)) +:+ lbl +:+ tail_of F <> F.
Proof.
  intros Hlbl Hne H. apply (f_equal tail_of) in H.
  rewrite tail_of_prefixed in H.
  - apply (f_equal String.length) in H. rewrite length_app in H.
    destruct lbl; [congruence | simpl in H; lia].
  - apply join_prefix_cases.
  - now rewrite contains_char_app, Hlbl, tail_noslash.
Qed.

Lemma tmp_ne_message (F : string) : tmp_filename_of F <> F.
Proof.
  rewrite tmp_filename_eq. now apply dotted_ne_message.
Qed.

Lemma rejected_ne_message (F : string) : rejected_filename_of F <> F.
Proof.
  rewrite rejected_filename_eq. now apply dotted_ne_message.
Qed.

End Paths.







(** Case analysis of a membership in an explicit trace. *)
Ltac in_cases H :=
  cbn [In] in H;
  repeat (destruct H as [H|H]; [simplify_eq|]);
  try contradiction.

Ltac names_clash :=
  match goal with
  | H : rejected_filename_of ?F = tmp_filename_of ?F |- _ =>
      destruct (tmp_ne_rejected F (eq_sym H))
  | H : tmp_filename_of ?F = rejected_filename_of ?F |- _ =>
      destruct (tmp_ne_rejected F H)
  | H : tmp_filename_of ?F = ?F |- _ => destruct (tmp_ne_message F H)
  | H : ?F = tmp_filename_of ?F |- _ => destruct (tmp_ne_message F (eq_sym H))
  | H : rejected_filename_of ?F = ?F |- _ => destruct (rejected_ne_message F H)
  | H : ?F = rejected_filename_of ?F |- _ =>
      destruct (rejected_ne_message F (eq_sym H))
  end.

(** Finding the events before a given tail of an explicit trace. *)
Ltac find_prefix tac :=
  first
    [ exists (@nil event); tac
    | eexists (cons _ nil); tac
    | eexists (cons _ (cons _ nil)); tac
    | eexists (cons _ (cons _ (cons _ nil))); tac
    | eexists (cons _ (cons _ (cons _ (cons _ nil)))); tac
    | eexists (cons _ (cons _ (cons _ (cons _ (cons _ nil))))); tac
    | eexists (cons _ (cons _ (cons _ (cons _ (cons _ (cons _ nil)))))); tac
    | eexists
        (cons _ (cons _ (cons _ (cons _ (cons _ (cons _ (cons _ nil)))))));
      tac
    | eexists
        (cons _
           (cons _ (cons _ (cons _ (cons _ (cons _ (cons _ (cons _ nil))))))));
      tac ].

Ltac destruct_units :=
  repeat match goal with u : unit |- _ => destruct u end.

Ltac shape_solve :=
  repeat first
    [ progress intros
    | progress (lazy beta iota)
    | reflexivity
    | discriminate
    | names_clash
    | progress simplify_eq
    | match goal with
      | H : _ \/ _ |- _ => destruct H
      | H : (?x =? ?x) = false |- _ => rewrite Z.eqb_refl in H
      | H : (?x =? ?y) = _ |- context [?x =? ?y] => rewrite H
      | |- context [tolerated _] => progress cbn [tolerated]
      | |- _ /\ _ => split
      | |- exists _, _ => eexists
      end ].


(** A failure of the mailer that is not permanent: the catch-all
    handler logs it with the parsed sender and recipients, and nothing
    else happens. *)
Lemma transient_failure_trace (F : string) tr o l f t msg e :
  exec (_send_message F fresh_locals) tr (o, l) ->
  In (EvSend f t msg (inl e)) tr ->
  is_permanent e = false ->
  o = Normal tt /\ l = Locals f t /\
  exists pre raw,
    tr = pre ++ [EvLink F (tmp_filename_of F) (inr tt); EvRead F (inr raw);
                 EvSend f t msg (inl e);
                 EvLog (catch_all_record F (Locals f t) e)] /\
    Forall (reclaim_event (tmp_filename_of F)) pre.
Proof.
  intros H Hin Hperm. exec_all H; in_cases Hin;
    try (cbn [is_permanent] in Hperm; congruence);
    destruct_units;
    (split; [reflexivity|]); (split; [reflexivity|]);
    find_prefix ltac:(eexists; split; [cbn [app]; reflexivity|]);
    repeat constructor.
Qed.

(** A permanent failure of the mailer: the error is logged with the
    sender and the recipients, the quarantine link is attempted, and
    what follows depends on the answers of the operating system. *)
Lemma permanent_failure_trace (F : string) tr o l f t msg e :
  exec (_send_message F fresh_locals) tr (o, l) ->
  In (EvSend f t msg (inl e)) tr ->
  is_permanent e = true ->
  let T := tmp_filename_of F in
  let R := rejected_filename_of F in
  o = Normal tt /\ l = Locals f t /\
  exists pre raw r post,
    tr = pre ++ EvLink F T (inr tt) :: EvRead F (inr raw) ::
                EvSend f t msg (inl e) ::
                EvLog (discard_record f t e) :: EvLink F R r :: post /\
    Forall (reclaim_event T) pre /\
    match r with
    | inl e' => post = [EvLog (catch_all_record F (Locals f t) e')]
    | inr _ => finalize_shape F T f t post
    end.
Proof.
  intros H Hin Hperm T R. subst T R. exec_all H; in_cases Hin;
    try (cbn [is_permanent] in Hperm; congruence);
    destruct_units;
    (split; [reflexivity|]); (split; [reflexivity|]);
    find_prefix ltac:(eexists _, _, _; split; [cbn [app]; reflexivity|]);
    (split; [repeat constructor|]);
    unfold finalize_shape; shape_solve.
Qed.

(** Whatever the body of the outer [try] raises is logged by the
    catch-all handler, with the local variables as they stand, and
    swallowed. *)
Lemma catch_all_logs (F : string) tr e l :
  exec (_send_message_body F (tmp_filename_of F) (rejected_filename_of F)
          fresh_locals) tr (Raised e, l) ->
  exec (_send_message F fresh_locals)
       (tr ++ [EvLog (catch_all_record F l e)]) (Normal tt, l).
Proof.
  intros H. apply exec_prog_bind.
  exists [], (tr ++ [EvLog (catch_all_record F l e)]), (Normal tt, fresh_locals).
  split; [reflexivity|]. split; [split; reflexivity|].
  apply exec_prog_bind.
  exists tr, [EvLog (catch_all_record F l e)], (Raised e, l).
  split; [reflexivity|]. split; [exact H|].
  exists tt, []. repeat split.
Qed.

(** The local variables the catch-all handler finds are the initial
    ones, or the sender and recipients parsed from the message read. *)
Lemma raised_locals (F : string) tr e l :
  exec (_send_message_body F (tmp_filename_of F) (rejected_filename_of F)
          fresh_locals) tr (Raised e, l) ->
  l = fresh_locals \/
  exists raw f t b,
    In (EvRead F (inr raw)) tr /\ _parseMessage raw = inr (f, t, b) /\
    l = Locals f t.
Proof.
  intros H. exec_all H; try (left; reflexivity);
    right; eexists _, _, _, _; (split; [|split; [eassumption|reflexivity]]);
    cbn [In]; auto 12.
Qed.

(** A pass in which the stop flag is never seen handles every file
    name of the listing, in order, whatever happens to each. *)
Lemma send_messages_loop_all (filenames : list string) tr o u :
  exec (send_messages_loop filenames tt) tr (o, u) ->
  (forall b, In (EvStopped b) tr -> b = false) ->
  o = Normal tt /\
  exists trs,
    tr = concat (map (cons (EvStopped false)) trs) /\
    Forall2 (fun f t => exists r, exec (_send_message f fresh_locals) t r)
            filenames trs.
Proof.
  revert tr. induction filenames as [|f rest IH]; intros tr H Hstop.
  - destruct H as [-> [= -> ->]]. split; [reflexivity|].
    exists []. split; [reflexivity | constructor].
  - destruct H as (stopped & tr1 & -> & H).
    assert (stopped = false) as -> by (apply Hstop; left; reflexivity).
    apply exec_prog_bind in H as (tr0 & tra & [o0 u0] & -> & [-> [= -> ->]] & H2).
    apply exec_prog_bind in H2 as (trb & trc & [ob ub] & -> & Hb & Hc).
    apply exec_prog_bind in Hb as (trd & tre & [od ld] & -> & Hd & He).
    assert (Hrest : exec (send_messages_loop rest tt) trc (o, u) /\ tre = []).
    { destruct (send_message_outcome _ _ _ _ Hd) as [-> | ->];
        destruct He as [-> [= -> ->]]; auto. }
    destruct Hrest as [Hrest ->]. rewrite app_nil_r in *. cbn [app] in *.
    apply IH in Hrest as [-> (trs & -> & Hall)].
    + split; [reflexivity|]. exists (trd :: trs).
      split; [reflexivity | constructor; eauto].
    + intros b Hb'. apply Hstop. right. apply in_or_app. now right.
Qed.

(** C5.  [_send_message] never ends by raising: it falls off its end
    or returns.  Whatever its [try] body raises is caught by the bare
    [except], logged once at error level together with the exception,
    and swallowed; the record names the sender and the recipients when
    parsing had recovered one of them (the local variables are then the
    parsed ones) and the file name otherwise.  Consequently a pass in
    which the stop flag is not seen calls [_send_message] on every file
    name of the listing, in order. *)
Theorem send_message_swallows_failures (F : string) :
  (forall tr o l,
     exec (_send_message F fresh_locals) tr (o, l) ->
     o = Normal tt \/ o = Returned) /\
  (forall tr e l,
     exec (_send_message_body F (tmp_filename_of F) (rejected_filename_of F)
             fresh_locals) tr (Raised e, l) ->
     exec (_send_message F fresh_locals)
          (tr ++ [EvLog (catch_all_record F l e)]) (Normal tt, l) /\
     log_level (catch_all_record F l e) = ERROR /\
     log_exc_info (catch_all_record F l e) = Some e /\
     (l = fresh_locals \/
      exists raw f t b,
        In (EvRead F (inr raw)) tr /\ _parseMessage raw = inr (f, t, b) /\
        l = Locals f t) /\
     (fromaddr l <> EmptyString \/ toaddrs l <> [] ->
      log_args (catch_all_record F l e)
      = [ArgStr (fromaddr l); ArgStr (Py.join ", " (toaddrs l))]) /\
     (fromaddr l = EmptyString -> toaddrs l = [] ->
      log_args (catch_all_record F l e) = [ArgStr F])) /\
  (forall filenames tr o u,
     exec (send_messages_loop filenames tt) tr (o, u) ->
     (forall b, In (EvStopped b) tr -> b = false) ->
     o = Normal tt /\
     exists trs,
       tr = concat (map (cons (EvStopped false)) trs) /\
       Forall2 (fun f t => exists r, exec (_send_message f fresh_locals) t r)
               filenames trs).
Proof.
  split; [|split].
  - apply send_message_outcome.
  - intros tr e l H.
    split; [now apply catch_all_logs|].
    assert (Hrec : forall b, log_level (if b : bool
                     then LogRecord ERROR "Error while sending mail from %s to %s."
                            [ArgStr (fromaddr l);
                             ArgStr (Py.join ", " (toaddrs l))] (Some e)
                     else LogRecord ERROR "Error while sending mail : %s "
                            [ArgStr F] (Some e)) = ERROR /\
                   log_exc_info (if b
                     then LogRecord ERROR "Error while sending mail from %s to %s."
                            [ArgStr (fromaddr l);
                             ArgStr (Py.join ", " (toaddrs l))] (Some e)
                     else LogRecord ERROR "Error while sending mail : %s "
                            [ArgStr F] (Some e)) = Some e)
      by (intros []; split; reflexivity).
    split; [apply Hrec|]. split; [apply Hrec|].
    split; [now apply (raised_locals F tr e)|].
    unfold catch_all_record.
    destruct (String.eqb_spec (fromaddr l) EmptyString) as [Ef|Ef];
      destruct (decide (toaddrs l = [])) as [Et|Et];
      rewrite ?(bool_decide_eq_true_2 _ Et), ?(bool_decide_eq_false_2 _ Et);
      cbn [negb orb]; split; try reflexivity; intros; tauto.
  - apply send_messages_loop_all.
Qed.

Section OsSteps.
Context (e : environment).

Lemma inode_at_insert (f : filesystem) (i j : nat) (t : Z) :
  content (inode_at
             (Filesystem (names f)
                (<[i := Inode (content (inode_at f i)) t]> (inodes f))) j)
  = content (inode_at f j).
Proof.
  unfold inode_at. cbn [inodes]. destruct (decide (i = j)) as [->|Hne].
  - now rewrite lookup_insert_eq.
  - now rewrite lookup_insert_ne.
Qed.

(** One call answered by the filesystem. *)
Lemma os_step (c : call) (w w' : world) (x : result c) :
  os_handler e c w = (x, w') ->
  names (fs w') = apply_event (observe c x) (names (fs w)) /\
  justified e (names (fs w)) (fun i => content (inode_at (fs w) i))
            (observe c x) /\
  (forall i, content (inode_at (fs w') i) = content (inode_at (fs w) i)) /\
  tick w' = S (tick w).
Proof.
  destruct w as [f n].
  destruct c; cbn [os_handler observe fs tick]; unfold faulty;
    cbn [fs tick]; intros H.
  all: try (injection H as <- <-; cbn; auto).
  all: destruct (fault e n) as [err|] eqn:Hfault;
    [ injection H as <- <-; cbn [fs names tick apply_event justified];
      repeat split; auto; left; exists n; exact Hfault
    | ].
  - (* os.stat *)
    unfold fs_stat in H. cbn [fst snd] in H.
    destruct (names f !! path) eqn:E; injection H as <- <-; cbn; eauto 6.
  - (* os.unlink *)
    unfold fs_unlink in H.
    destruct (names f !! path) eqn:E; cbn [fst snd] in H;
      injection H as <- <-; cbn; repeat split; eauto.
  - (* os.utime *)
    unfold fs_utime in H.
    destruct (names f !! path) eqn:E; cbn [fst snd] in H;
      injection H as <- <-; cbn [fs names tick observe apply_event justified];
      repeat split; eauto using inode_at_insert.
  - (* os.link *)
    unfold fs_link in H.
    destruct (names f !! src) eqn:Es; cbn [fst snd] in H;
      [destruct (names f !! dst) eqn:Ed; cbn [fst snd] in H|];
      injection H as <- <-; cbn [fs names tick observe apply_event justified];
      rewrite ?Es; repeat split; eauto 8.
  - (* open, read *)
    unfold fs_read in H. cbn [fst snd] in H.
    destruct (names f !! path) eqn:E; injection H as <- <-; cbn; eauto 6.
  - (* the listing *)
    cbn [fst snd] in H. injection H as <- <-. cbn. auto.
Qed.

Lemma justified_cont (ns : gmap string nat) (c1 c2 : nat -> string) ev :
  (forall i, c1 i = c2 i) ->
  justified e ns c1 ev -> justified e ns c2 ev.
Proof.
  intros Hc. destruct ev; cbn [justified]; auto.
  destruct r; auto. intros (i & ? & ?). exists i. now rewrite <- Hc.
Qed.

Lemma justified_trace_cont (c1 c2 : nat -> string) tr :
  (forall i, c1 i = c2 i) ->
  forall ns, justified_trace e ns c1 tr -> justified_trace e ns c2 tr.
Proof.
  intros Hc. induction tr as [|ev tr IH]; intros ns; cbn [justified_trace];
    [auto|].
  intros [H1 H2]. split; [eapply justified_cont; eauto | auto].
Qed.

(** A whole run answered by the filesystem. *)
Lemma os_run {A} (p : prog A) (w w' : world) (a : A) tr :
  run (os_handler e) p w = (a, w', tr) ->
  names (fs w') = names_after tr (names (fs w)) /\
  justified_trace e (names (fs w))
                  (fun i => content (inode_at (fs w) i)) tr /\
  (forall i, content (inode_at (fs w') i) = content (inode_at (fs w) i)).
Proof.
  revert w tr. induction p as [a0|c k IH]; intros w tr; cbn [run].
  - intros [= <- <- <-]. cbn. auto.
  - destruct (os_handler e c w) as [x w1] eqn:Hc.
    destruct (run (os_handler e) (k x) w1) as [[a1 w2] tr1] eqn:Hr.
    intros [= <- <- <-].
    apply os_step in Hc as (Hn & Hj & Hcont & _).
    apply IH in Hr as (Hn' & Hj' & Hcont').
    cbn [names_after fold_left justified_trace].
    rewrite <- Hn. fold (names_after tr1 (names (fs w1))).
    split; [exact Hn'|]. split.
    + split; [exact Hj|].
      exact (justified_trace_cont
               (fun i => content (inode_at (fs w1) i)) _ tr1 Hcont _ Hj').
    + intros i. now rewrite Hcont', Hcont.
Qed.

End OsSteps.

Lemma names_after_app (tr1 tr2 : list event) (ns : gmap string nat) :
  names_after (tr1 ++ tr2) ns = names_after tr2 (names_after tr1 ns).
Proof. apply fold_left_app. Qed.

Lemma justified_trace_app e ns cont (tr1 tr2 : list event) :
  justified_trace e ns cont (tr1 ++ tr2) <->
  justified_trace e ns cont tr1 /\
  justified_trace e (names_after tr1 ns) cont tr2.
Proof.
  revert ns. induction tr1 as [|ev tr1 IH]; intros ns; cbn; [tauto|].
  rewrite IH. tauto.
Qed.

(** The events before the touch do not change a name other than [T]. *)
Lemma reclaim_keeps (T p : string) (pre : list event) (ns : gmap string nat) :
  Forall (reclaim_event T) pre -> p <> T ->
  names_after pre ns !! p = ns !! p.
Proof.
  intros Hall Hne. revert ns.
  induction Hall as [|ev pre Hev _ IH]; intros ns; [reflexivity|].
  cbn [names_after fold_left]. fold (names_after pre (apply_event ev ns)).
  rewrite IH. destruct ev; cbn in Hev |- *; try tauto; try reflexivity.
  destruct r; [reflexivity|]. subst. now rewrite lookup_delete_ne.
Qed.

(** C4.  When the mailer fails with anything but an SMTP response
    error whose code is in 500-599, the next and last thing
    [_send_message] does is to log the failure at error level with the
    parsed sender and recipients (the file name when parsing recovered
    neither); it then returns normally.  It unlinks nothing after the
    failure and never links the quarantine name.  On the filesystem,
    the message file and the tmp file are both still there, naming the
    same inode, and the quarantine name is as it was. *)
Theorem transient_failure_leaves_message
        (F f : string) (t : list string) (msg : string) (e : exn) :
  is_permanent e = false ->
  let T := tmp_filename_of F in
  let R := rejected_filename_of F in
  (forall tr o l,
     exec (_send_message F fresh_locals) tr (o, l) ->
     In (EvSend f t msg (inl e)) tr ->
     o = Normal tt /\
     (exists pre,
        tr = pre ++ [EvSend f t msg (inl e);
                     EvLog (catch_all_record F (Locals f t) e)]) /\
     log_level (catch_all_record F (Locals f t) e) = ERROR /\
     (forall s r, ~ In (EvLink s R r) tr)) /\
  (forall env w0 o l w1 tr,
     send_one env F w0 = (o, l, w1, tr) ->
     In (EvSend f t msg (inl e)) tr ->
     exists i,
       names (fs w1) !! F = Some i /\ names (fs w1) !! T = Some i /\
       names (fs w1) !! R = names (fs w0) !! R).
Proof.
  intros Hperm T R. split.
  - intros tr o l H Hin.
    destruct (transient_failure_trace F tr o l f t msg e H Hin Hperm)
      as (-> & -> & pre & raw & -> & Hpre).
    split; [reflexivity|]. split; [|split].
    + exists (pre ++ [EvLink F T (inr tt); EvRead F (inr raw)]).
      now rewrite <- app_assoc.
    + unfold catch_all_record. now destruct (_ || _).
    + intros s r Hl. apply in_app_or in Hl as [Hl|Hl].
      * apply (proj1 (List.Forall_forall _ _) Hpre _ Hl).
      * in_cases Hl. names_clash.
  - intros env w0 o l w1 tr Hrun Hin. unfold send_one in Hrun.
    pose proof (run_exec _ _ _ _ _ _ Hrun) as H.
    destruct (transient_failure_trace F tr o l f t msg e H Hin Hperm)
      as (-> & -> & pre & raw & -> & Hpre).
    apply os_run in Hrun as (Hn & Hj & _).
    rewrite names_after_app in Hn. apply justified_trace_app in Hj as [_ Hj].
    cbn in Hj. destruct Hj as [[[i Hi] HT] _].
    cbn in Hn. rewrite Hi in Hn. exists i. rewrite Hn.
    rewrite lookup_insert_eq, !lookup_insert_ne
      by (try apply tmp_ne_message; apply tmp_ne_rejected).
    rewrite (reclaim_keeps T R) by (auto; apply not_eq_sym, tmp_ne_rejected).
    auto.
Qed.

Lemma transient_failure_leaves_message_witness :
  let env := mailer_fails (SMTPResponseException 451 "try later") 1000 in
  let w1 := snd (fst (send_one env "q/cur/m1" one_message)) in
  exists i,
    names (fs w1) !! "q/cur/m1" = Some i /\
    names (fs w1) !! tmp_filename_of "q/cur/m1" = Some i /\
    names (fs w1) !! rejected_filename_of "q/cur/m1"
    = names (fs one_message) !! rejected_filename_of "q/cur/m1".
Proof.
  intros env w1.
  destruct (transient_failure_leaves_message
              "q/cur/m1" "a@x" ["b@x"; "c@x"] "hello"
              (SMTPResponseException 451 "try later") eq_refl) as [_ Hos].
  destruct (send_one env "q/cur/m1" one_message) as [[[o l] w] tr] eqn:E.
  apply (Hos env one_message o l w tr E).
  assert (Etr : snd (send_one env "q/cur/m1" one_message) = tr)
    by (rewrite E; reflexivity).
  rewrite <- Etr. vm_compute. auto 10.
Defined.

Lemma not_injected (env : environment) (err : exn) :
  (forall n, fault env n = None) -> ~ injected env err.
Proof. intros Hnone [n Hn]. rewrite Hnone in Hn. discriminate. Qed.

(** The directory when the quarantine link is attempted, in a run that
    got as far as the mailer: the events before the touch, then the
    hard link to the tmp file, the read, the call of the mailer and a
    log record. *)
Lemma names_at_quarantine env (T F R : string) (pre : list event)
      (raw f : string) (t : list string) (msg : string) (rs : exn + unit)
      (rec : log_record) (rest : list event) (ns : gmap string nat) cont :
  T <> F -> T <> R ->
  Forall (reclaim_event T) pre ->
  justified_trace env ns cont
    (pre ++ EvLink F T (inr tt) :: EvRead F (inr raw) :: EvSend f t msg rs ::
            EvLog rec :: rest) ->
  exists i,
    names_after pre ns !! F = Some i /\ cont i = raw /\
    names_after (pre ++ EvLink F T (inr tt) :: EvRead F (inr raw) ::
                 EvSend f t msg rs :: EvLog rec :: rest) ns
    = names_after rest (<[T := i]> (names_after pre ns)) /\
    <[T := i]> (names_after pre ns) !! R = ns !! R /\
    justified_trace env (<[T := i]> (names_after pre ns)) cont rest.
Proof.
  intros HTF HTR Hpre Hj.
  apply justified_trace_app in Hj as [_ Hj]. cbn in Hj.
  destruct Hj as [[[i Hi] HT] [(i' & Hi' & Hraw) [_ [_ Hrest]]]].
  rewrite Hi in Hi', Hrest. rewrite lookup_insert_ne in Hi' by exact HTF.
  assert (i' = i) as -> by congruence.
  exists i. split; [exact Hi|]. split; [exact Hraw|].
  rewrite names_after_app. cbn. rewrite Hi.
  split; [reflexivity|]. split; [|exact Hrest].
  rewrite lookup_insert_ne by exact HTR.
  apply (reclaim_keeps T); [exact Hpre | now apply not_eq_sym].
Qed.

(** C10.  When the quarantine marker already exists at the moment the
    mailer reports a permanent failure, the hard link that should
    create the marker raises (with [EEXIST], unless the environment
    injects another error), the catch-all handler logs that exception,
    and nothing else is done: [_send_message] returns normally and the
    message file and the tmp file are both still there. *)
Theorem existing_marker_blocks_quarantine
        (F f : string) (t : list string) (msg : string) (e : exn) :
  is_permanent e = true ->
  let T := tmp_filename_of F in
  let R := rejected_filename_of F in
  forall env w0 o l w1 tr,
    send_one env F w0 = (o, l, w1, tr) ->
    In (EvSend f t msg (inl e)) tr ->
    is_Some (names (fs w0) !! R) ->
    o = Normal tt /\
    (exists pre e',
       tr = pre ++ [EvSend f t msg (inl e); EvLog (discard_record f t e);
                    EvLink F R (inl e');
                    EvLog (catch_all_record F (Locals f t) e')] /\
       (e' = OSError EEXIST \/ injected env e')) /\
    (exists i, names (fs w1) !! F = Some i /\ names (fs w1) !! T = Some i).
Proof.
  intros Hperm T R env w0 o l w1 tr Hrun Hin HR. unfold send_one in Hrun.
  pose proof (run_exec _ _ _ _ _ _ Hrun) as H.
  destruct (permanent_failure_trace F tr o l f t msg e H Hin Hperm)
    as (-> & -> & pre & raw & r & post & -> & Hpre & Hshape).
  subst T R. set (T := tmp_filename_of F) in *.
  set (R := rejected_filename_of F) in *.
  apply os_run in Hrun as (Hn & Hj & _).
  destruct (names_at_quarantine env T F R pre raw f t msg (inl e) _ _ _ _
              (tmp_ne_message F) (tmp_ne_rejected F) Hpre Hj)
    as (i & Hi & _ & Hafter & HRi & Hrest).
  rewrite Hafter in Hn. cbn in Hrest. destruct Hrest as [Hlink _].
  split; [reflexivity|].
  destruct r as [e'|[]].
  - subst post. split.
    + exists (pre ++ [EvLink F T (inr tt); EvRead F (inr raw)]), e'.
      split; [now rewrite <- app_assoc|].
      destruct Hlink as [Hinj | [[-> Hnone] | [-> _]]]; auto.
      rewrite lookup_insert_ne, Hi in Hnone by apply tmp_ne_message.
      discriminate.
    + exists i. cbn in Hn. rewrite Hn.
      rewrite lookup_insert_eq, lookup_insert_ne by apply tmp_ne_message.
      auto.
  - destruct Hlink as [_ Hnone]. rewrite HRi in Hnone.
    destruct HR as [j Hj']. congruence.
Qed.

Lemma existing_marker_blocks_quarantine_witness :
  let env := mailer_fails (SMTPResponseException 550 "no such user") 1000 in
  let w1 := snd (fst (send_one env "q/cur/m1" one_message_rejected)) in
  exists i,
    names (fs w1) !! "q/cur/m1" = Some i /\
    names (fs w1) !! tmp_filename_of "q/cur/m1" = Some i.
Proof.
  intros env w1.
  destruct (send_one env "q/cur/m1" one_message_rejected)
    as [[[o l] w] tr] eqn:E.
  assert (Etr : snd (send_one env "q/cur/m1" one_message_rejected) = tr)
    by (rewrite E; reflexivity).
  apply (existing_marker_blocks_quarantine
           "q/cur/m1" "a@x" ["b@x"; "c@x"] "hello"
           (SMTPResponseException 550 "no such user") eq_refl
           env one_message_rejected o l w tr E).
  - rewrite <- Etr. vm_compute. auto 10.
  - vm_compute. eauto.
Defined.

Lemma tolerated_cases (r : exn + unit) :
  tolerated r = true -> r = inr tt \/ r = inl (OSError ENOENT).
Proof.
  destruct r as [[n| | | |]|[]]; cbn; try discriminate; auto.
  intros H. apply Z.eqb_eq in H. subst. auto.
Qed.

(** The answer of the filesystem to an unlink of a name that is there,
    when the environment injects nothing. *)
Lemma unlink_present_succeeds env ns cont (p : string) (r : exn + unit) :
  (forall n, fault env n = None) -> is_Some (ns !! p) ->
  justified env ns cont (EvUnlink p r) -> r = inr tt.
Proof.
  intros Hnone [i Hi] Hj. destruct r as [err|[]]; [|reflexivity].
  cbn in Hj. destruct Hj as [Hinj | [_ Habs]].
  - destruct (not_injected env err Hnone Hinj).
  - congruence.
Qed.

(** C3.  When, after the lock is taken, the mailer raises an SMTP
    response error with a code in 500-599, [_send_message] logs at
    error level a record naming the sender and the recipients, then
    attempts the hard link from the message file to the quarantine
    name; when the link is made it unlinks the message file, then the
    tmp file, going on when either is already missing; and in every
    case it returns normally.  On a filesystem where the marker does
    not exist yet and the operating system injects no error, the
    message file and the tmp file are gone at the end and the
    quarantine name holds the bytes that were read. *)
Theorem permanent_failure_quarantines
        (F f : string) (t : list string) (msg : string) (e : exn) :
  is_permanent e = true ->
  let T := tmp_filename_of F in
  let R := rejected_filename_of F in
  (forall tr o l,
     exec (_send_message F fresh_locals) tr (o, l) ->
     In (EvSend f t msg (inl e)) tr ->
     o = Normal tt /\
     log_level (discard_record f t e) = ERROR /\
     log_args (discard_record f t e)
     = [ArgStr f; ArgStr (Py.join ", " t); ArgExc e] /\
     exists pre r post,
       tr = pre ++ EvSend f t msg (inl e) :: EvLog (discard_record f t e) ::
                   EvLink F R r :: post /\
       (r = inr tt ->
        exists r1 post1, post = EvUnlink F r1 :: post1 /\
          (r1 = inr tt \/ r1 = inl (OSError ENOENT) ->
           exists r2 post2, post1 = EvUnlink T r2 :: post2 /\
             (r2 = inr tt \/ r2 = inl (OSError ENOENT) ->
              post2 = [EvLog (sent_record f t)])))) /\
  (forall env w0 o l w1 tr,
     send_one env F w0 = (o, l, w1, tr) ->
     In (EvSend f t msg (inl e)) tr ->
     (forall n, fault env n = None) ->
     names (fs w0) !! R = None ->
     names (fs w1) !! F = None /\
     names (fs w1) !! T = None /\
     exists i raw,
       names (fs w1) !! R = Some i /\
       In (EvRead F (inr raw)) tr /\
       content (inode_at (fs w1) i) = raw).
Proof.
  intros Hperm T R. split.
  - intros tr o l H Hin.
    destruct (permanent_failure_trace F tr o l f t msg e H Hin Hperm)
      as (-> & -> & pre & raw & r & post & -> & Hpre & Hshape).
    split; [reflexivity|]. split; [reflexivity|]. split; [reflexivity|].
    exists (pre ++ [EvLink F T (inr tt); EvRead F (inr raw)]), r, post.
    split; [now rewrite <- app_assoc|].
    intros ->. destruct Hshape as (r1 & post1 & -> & Hshape).
    exists r1, post1. split; [reflexivity|]. intros Hr1.
    assert (tolerated r1 = true) as Ht1
        by (destruct Hr1 as [-> | ->]; reflexivity).
    rewrite Ht1 in Hshape. destruct Hshape as (r2 & post2 & -> & Hshape).
    exists r2, post2. split; [reflexivity|]. intros Hr2.
    assert (tolerated r2 = true) as Ht2
        by (destruct Hr2 as [-> | ->]; reflexivity).
    now rewrite Ht2 in Hshape.
  - intros env w0 o l w1 tr Hrun Hin Hnone HR. unfold send_one in Hrun.
    pose proof (run_exec _ _ _ _ _ _ Hrun) as H.
    destruct (permanent_failure_trace F tr o l f t msg e H Hin Hperm)
      as (-> & -> & pre & raw & r & post & -> & Hpre & Hshape).
    subst T R. set (T := tmp_filename_of F) in *.
    set (R := rejected_filename_of F) in *.
    assert (HTF : T <> F) by apply tmp_ne_message.
    assert (HTR : T <> R) by apply tmp_ne_rejected.
    assert (HRF : R <> F) by apply rejected_ne_message.
    apply os_run in Hrun as (Hn & Hj & Hcont).
    destruct (names_at_quarantine env T F R pre raw f t msg (inl e) _ _ _ _
                HTF HTR Hpre Hj)
      as (i & Hi & Hraw & Hafter & HRi & Hrest).
    rewrite Hafter in Hn. clear Hafter Hj.
    set (ns1 := <[T := i]> (names_after pre (names (fs w0)))) in *.
    assert (HF1 : ns1 !! F = Some i)
      by (subst ns1; now rewrite lookup_insert_ne).
    cbn [justified_trace] in Hrest. destruct Hrest as [Hlink Hrest].
    (* the quarantine link is made *)
    destruct r as [err|[]].
    { cbn in Hlink. destruct Hlink as [Hinj | [[_ Habs] | [_ [_ [j Hj]]]]].
      - destruct (not_injected env err Hnone Hinj).
      - congruence.
      - rewrite HRi, HR in Hj. discriminate. }
    cbn [apply_event] in Hrest, Hn. cbn [names_after fold_left] in Hn.
    cbn [apply_event] in Hn. rewrite HF1 in Hrest, Hn.
    set (ns2 := <[R := i]> ns1) in *.
    assert (HF2 : ns2 !! F = Some i)
      by (subst ns2; now rewrite lookup_insert_ne).
    assert (HT2 : ns2 !! T = Some i).
    { subst ns2 ns1. rewrite lookup_insert_ne by now apply not_eq_sym.
      now rewrite lookup_insert_eq. }
    (* the message file is removed *)
    destruct Hshape as (r1 & post1 & -> & Hshape).
    cbn [justified_trace] in Hrest. destruct Hrest as [Hu1 Hrest].
    assert (r1 = inr tt) as ->
        by (apply (unlink_present_succeeds env ns2 _ F r1 Hnone
                     (ex_intro _ i HF2) Hu1)).
    cbn [tolerated] in Hshape. destruct Hshape as (r2 & post2 & -> & Hshape).
    cbn [apply_event] in Hrest. cbn [fold_left apply_event] in Hn.
    (* the tmp file is removed *)
    cbn [justified_trace] in Hrest. destruct Hrest as [Hu2 _].
    assert (r2 = inr tt) as ->.
    { apply (fun Hs => unlink_present_succeeds env _ _ T r2 Hnone Hs Hu2).
      exists i. now rewrite lookup_delete_ne by now apply not_eq_sym. }
    cbn [tolerated] in Hshape. subst post2.
    cbn [fold_left apply_event] in Hn. rewrite Hn.
    split; [|split].
    + rewrite lookup_delete_ne by exact HTF. now rewrite lookup_delete_eq.
    + now rewrite lookup_delete_eq.
    + exists i, raw. split; [|split].
      * rewrite !lookup_delete_ne
          by first [assumption | apply not_eq_sym; assumption].
        subst ns2. now rewrite lookup_insert_eq.
      * apply in_or_app. right. right. left. reflexivity.
      * now rewrite Hcont.
Qed.

Lemma permanent_failure_quarantines_witness :
  let env := mailer_fails (SMTPResponseException 550 "no such user") 1000 in
  let w1 := snd (fst (send_one env "q/cur/m1" one_message)) in
  names (fs w1) !! "q/cur/m1" = None /\
  names (fs w1) !! tmp_filename_of "q/cur/m1" = None /\
  exists i raw,
    names (fs w1) !! rejected_filename_of "q/cur/m1" = Some i /\
    In (EvRead "q/cur/m1" (inr raw))
       (snd (send_one env "q/cur/m1" one_message)) /\
    content (inode_at (fs w1) i) = raw.
Proof.
  intros env w1.
  destruct (permanent_failure_quarantines
              "q/cur/m1" "a@x" ["b@x"; "c@x"] "hello"
              (SMTPResponseException 550 "no such user") eq_refl)
    as [_ Hos].
  subst w1.
  destruct (send_one env "q/cur/m1" one_message) as [[[o l] w] tr] eqn:E.
  assert (Etr : snd (send_one env "q/cur/m1" one_message) = tr)
    by (rewrite E; reflexivity).
  apply (Hos env one_message o l w tr E).
  - rewrite <- Etr. vm_compute. auto 10.
  - intros n. reflexivity.
  - vm_compute. reflexivity.
Defined.

(* ================================================================== *)
(** * Two workers on one message *)
(* ================================================================== *)

Section PhaseLemmas.
Context {A : Type} (F T : string).

Lemma bystander_releasing (p : prog A) : bystander F T p -> releasing F T p.
Proof.
  induction p as [a|c k IH]; cbn [bystander releasing]; [auto|].
  intros [Hc Hk]. split; [|auto]. destruct c; auto.
Qed.

Lemma bystander_holding (p : prog A) : bystander F T p -> holding F T p.
Proof.
  induction p as [a|c k IH]; cbn [bystander holding]; [auto|].
  intros [Hc Hk]. destruct c; auto.
  - split; [exact Hc|]. split; [|auto]. intros _.
    auto using bystander_releasing.
  - destruct Hc. auto.
Qed.


End PhaseLemmas.



Section Race.
Context (e : environment) (He : honest e) (F : string).
Local Notation "'T'" := (tmp_filename_of F) (only parsing).




End Race.

Section Pool.
Context (e : environment) (He : honest e) (F : string).
Local Notation "'T'" := (tmp_filename_of F) (only parsing).







End Pool.




(* ================================================================== *)
(** * The daemon loop and the thread *)
(* ================================================================== *)

Section Daemon.

Lemma never_sleeps_exec {A} (p : prog A) tr a :
  never_sleeps p -> exec p tr a -> Forall (fun ev => is_sleep ev = false) tr.
Proof.
  revert tr. induction p as [a0|c k IH]; intros tr Hp H; cbn in Hp, H.
  - destruct H as [-> _]. constructor.
  - destruct Hp as [Hc Hk]. destruct H as (x & tr' & -> & H).
    constructor; [|eauto]. destruct c; cbn; auto; contradiction.
Qed.

Lemma never_sleeps_bind {A B} (p : prog A) (f : A -> prog B) :
  never_sleeps p -> (forall a, never_sleeps (f a)) ->
  never_sleeps (prog_bind p f).
Proof.
  intros Hp Hf. induction p as [a|c k IH]; cbn in Hp |- *; [apply Hf|].
  destruct Hp as [Hc Hk]. split; [exact Hc | auto].
Qed.

Lemma send_message_never_sleeps (F : string) :
  never_sleeps (_send_message F fresh_locals).
Proof.
  unfold _send_message.
  repeat first
    [ progress (prog_norm; cbn [never_sleeps])
    | progress intros
    | match goal with
      | |- True => exact I
      | |- _ /\ _ => split
      | |- context [match ?x with _ => _ end] =>
          let y := innermost_scrutinee x in destruct y eqn:?
      end ].
Qed.

Lemma send_messages_loop_never_sleeps (filenames : list string) :
  never_sleeps (send_messages_loop filenames tt).
Proof.
  induction filenames as [|f rest IH]; [exact I|].
  split; [exact I|]. intros stopped.
  apply never_sleeps_bind; [exact I|].
  intros [[[|]| |] []]; try exact I.
  apply never_sleeps_bind.
  - apply never_sleeps_bind; [apply send_message_never_sleeps|].
    intros [[| |] ?]; exact I.
  - intros [[[]| |] []]; try exact I. exact IH.
Qed.

Lemma send_messages_never_sleeps : never_sleeps (send_messages tt).
Proof.
  split; [exact I|]. intros [err|filenames]; [exact I|].
  exact (send_messages_loop_never_sleeps filenames).
Qed.

Lemma well_slept_quiet (q : Q) (a rest : list event) :
  Forall (fun ev => is_sleep ev = false) a ->
  (match rest with [] => True | ev :: _ => is_sleep ev = false end) ->
  well_slept q (a ++ rest) <-> well_slept q rest.
Proof.
  intros Ha Hrest. induction Ha as [|ev a Hev Ha IH]; [reflexivity|].
  rewrite <- IH. cbn [app].
  destruct ev; cbn [well_slept]; try reflexivity; try discriminate.
  destruct b; [reflexivity|].
  destruct (a ++ rest) as [|ev' l] eqn:E; [reflexivity|].
  assert (is_sleep ev' = false) as Hev'.
  { destruct a as [|ev0 a]; cbn in E.
    - subst rest. exact Hrest.
    - injection E as <- _. now inversion Ha. }
  destruct ev'; try reflexivity. discriminate.
Qed.

Lemma invoke_send_messages tr o u :
  exec (invoke tt send_messages tt) tr (o, u) ->
  Forall (fun ev => is_sleep ev = false) tr.
Proof.
  intros H. apply exec_prog_bind in H as (tr1 & tr2 & a & -> & H1 & H2).
  apply never_sleeps_exec in H1; [|apply send_messages_never_sleeps].
  destruct a as [[| |] ?]; destruct H2 as [-> _]; now rewrite app_nil_r.
Qed.

(** The traces of the loop begin with a reading of the stop flag. *)
Lemma daemon_loop_head (fuel : nat) (q : Q) tr r :
  exec (send_messages_daemon_loop fuel q tt) tr r ->
  match tr with [] => True | ev :: _ => is_stop_check ev = true end.
Proof.
  destruct fuel; cbn.
  - intros [-> _]. exact I.
  - intros (x & tr' & -> & _). reflexivity.
Qed.

Lemma daemon_loop_well_slept (fuel : nat) (q : Q) :
  forall tr r,
    exec (send_messages_daemon_loop fuel q tt) tr r -> well_slept q tr.
Proof.
  induction fuel as [|fuel IH]; intros tr r H.
  - destruct H as [-> _]. exact I.
  - destruct H as (stopped & tr1 & -> & H).
    apply exec_prog_bind in H
      as (tr0 & tra & [o0 u0] & -> & [-> [= -> ->]] & H1).
    cbn [app]. destruct stopped.
    + destruct H1 as [-> _]. exact I.
    + apply exec_prog_bind in H1 as (trb & trc & [ob ub] & -> & Hb & Hc).
      pose proof (invoke_send_messages _ _ _ Hb) as Hquiet.
      assert (Hob : (exists e, ob = Raised e) \/ (ob, ub) = (Normal tt, tt)).
      { apply exec_prog_bind in Hb
          as (? & ? & [[| |] ?] & _ & _ & [_ [= -> ->]]); eauto. }
      change (EvStopped false :: trb ++ trc)
        with ((EvStopped false :: trb) ++ trc).
      destruct Hob as [[e ->] | [= -> ->]].
      * destruct Hc as [-> _].
        apply (proj2 (well_slept_quiet q (EvStopped false :: trb) []
                        (@List.Forall_cons _ _ (EvStopped false) trb eq_refl Hquiet) I)).
        exact I.
      * destruct Hc as (s2 & trd & -> & Hc).
        apply (proj2 (well_slept_quiet q (EvStopped false :: trb)
                        (EvStopped s2 :: trd)
                        (@List.Forall_cons _ _ (EvStopped false) trb eq_refl Hquiet) eq_refl)).
        apply exec_prog_bind in Hc
          as (tr0 & tre & [o0 u0] & -> & [-> [= -> ->]] & Hd).
        cbn [app].
        apply exec_prog_bind in Hd as (trf & trg & [og ug] & -> & Hf & Hg).
        destruct s2; cbn [negb] in Hf.
        -- destruct Hf as [-> [= -> ->]]. cbn [app well_slept]. eauto.
        -- destruct Hf as ([] & ? & -> & [-> [= -> ->]]).
           cbn [app well_slept observe].
           split; [reflexivity|]. split; [|eauto].
           eapply daemon_loop_head; eauto.
Qed.

End Daemon.

(** C8.  [send_messages_daemon(interval)] honours its interval: every
    sleep of the loop lasts [interval], follows a reading [False] of
    the stop flag and is followed by another reading of it.  The
    thread entry point does not: [send_messages_thread(interval)]
    starts the daemon loop without an argument, so the loop of the
    thread sleeps the default 3.0 seconds whatever [interval] is.  A
    thread started with [interval=10] on an empty maildir sleeps 3
    between its passes. *)
Theorem thread_ignores_interval :
  (forall (q : Q) (fuel : nat) tr r,
     exec (send_messages_daemon (Some q) fuel tt) tr r -> well_slept q tr) /\
  (forall (interval : option Q) (fuel : nat),
     Thread_run (send_messages_thread interval) fuel
     = send_messages_daemon None fuel) /\
  (forall (interval : option Q) (fuel : nat) tr r,
     exec (Thread_run (send_messages_thread interval) fuel tt) tr r ->
     well_slept default_interval tr) /\
  snd (run (os_handler (calm 0))
           (Thread_run (send_messages_thread (Some 10%Q)) 2 tt) empty_maildir)
  = [EvAtexit;
     EvStopped false; EvIter (inr []); EvStopped false; EvSleep 3;
     EvStopped false; EvIter (inr []); EvStopped false; EvSleep 3].
Proof.
  assert (Hdaemon : forall (i : option Q) (fuel : nat) tr r,
             exec (send_messages_daemon i fuel tt) tr r ->
             well_slept (default default_interval i) tr).
  { intros i fuel tr r (x & tr' & -> & H).
    apply exec_prog_bind in H
      as (tr0 & tra & [o0 u0] & -> & [-> [= -> ->]] & H1).
    cbn [app observe well_slept].
    eapply daemon_loop_well_slept. exact H1. }
  split; [|split; [|split]].
  - intros q fuel tr r. apply (Hdaemon (Some q)).
  - reflexivity.
  - intros interval fuel tr r. apply (Hdaemon None).
  - vm_compute. reflexivity.
Qed.

(* ================================================================== *)
(** * More on the codec *)
(* ================================================================== *)

Section CodecInverse.

Lemma prefix_drop (p s : string) :
  String.prefix p s = true -> s = p +:+ Py.drop (String.length p) s.
Proof.
  revert s. induction p as [|c p IH]; intros s H; [now destruct s|].
  destruct s as [|d s]; [discriminate|]. cbn [String.prefix] in H.
  destruct (ascii_dec c d) as [->|]; [|discriminate].
  cbn [String.length Py.drop].
  change (String d p +:+ Py.drop (String.length p) s)
    with (String d (p +:+ Py.drop (String.length p) s)).
  now rewrite <- IH.
Qed.

Lemma partition_some (sep s a b : string) :
  Py.partition sep s = Some (a, b) -> s = a +:+ sep +:+ b.
Proof.
  revert a b. induction s as [|c s IH]; intros a b H.
  - cbn [Py.partition] in H.
    destruct (String.prefix sep EmptyString) eqn:Hp; [|discriminate].
    injection H as <- <-. exact (prefix_drop _ _ Hp).
  - cbn [Py.partition] in H.
    destruct (String.prefix sep (String c s)) eqn:Hp.
    + injection H as <- <-. exact (prefix_drop _ _ Hp).
    + destruct (Py.partition sep s) as [[a' b']|]; [|discriminate].
      injection H as <- <-. now rewrite (IH a' b' eq_refl) at 1.
Qed.

Lemma split_fuel_nonempty (fuel : nat) (sep : string) (m : option nat)
      (s : string) :
  Py.split_fuel fuel sep m s <> [].
Proof.
  destruct fuel; cbn [Py.split_fuel]; [discriminate|].
  destruct m as [[|n]|]; try discriminate;
    destruct (Py.partition sep s) as [[a b]|]; discriminate.
Qed.

(** [sep.join(s.split(sep))] is [s]. *)
Lemma join_split_fuel (sep : string) (fuel : nat) (s : string) :
  Py.join sep (Py.split_fuel fuel sep None s) = s.
Proof.
  revert s. induction fuel as [|fuel IH]; intros s; [reflexivity|].
  cbn [Py.split_fuel].
  destruct (Py.partition sep s) as [[a b]|] eqn:Hp; [|reflexivity].
  apply partition_some in Hp. cbn [fmap option_fmap option_map].
  pose proof (split_fuel_nonempty fuel sep None b) as Hne.
  specialize (IH b). unfold Py.join in *.
  destruct (Py.split_fuel fuel sep None b) as [|x l]; [congruence|].
  cbn [String.concat] in IH |- *. now rewrite IH.
Qed.

Lemma prefix_before_newline (p a r : string) :
  Py.contains_char nl p = false ->
  String.prefix p (a +:+ NL +:+ r) = true -> String.prefix p a = true.
Proof.
  revert a. induction p as [|c p IH]; intros a Hp H; [now destruct a|].
  cbn [Py.contains_char] in Hp.
  destruct (Ascii.eqb nl c) eqn:Hc; [discriminate|].
  destruct a as [|d a].
  - change ("" +:+ NL +:+ r) with (String nl r) in H.
    cbn [String.prefix] in H.
    destruct (ascii_dec c nl) as [->|]; [|discriminate].
    now rewrite Ascii.eqb_refl in Hc.
  - change (String d a +:+ NL +:+ r) with (String d (a +:+ NL +:+ r)) in H.
    cbn [String.prefix] in H |- *.
    destruct (ascii_dec c d); [auto | discriminate].
Qed.

Lemma parseMessage_returns (message : string) :
  exists f t b, _parseMessage message = inr (f, t, b).
Proof.
  unfold _parseMessage. rewrite split_NL_2.
  destruct (Py.partition NL message) as [[a r]|]; [|cbn; eauto].
  destruct (Py.partition NL r) as [[b c]|]; cbn; eauto.
Qed.

End CodecInverse.

(** X1.  A message whose second line is the recipients marker followed
    by [text] always parses to at least one recipient, and joining the
    recipients with [", "], as every log record does, gives [text]
    back.  When [text] is empty the mailer is handed the single empty
    recipient. *)
Theorem recipients_header_is_kept (first text rest : string) :
  Py.contains_char nl first = false ->
  Py.contains_char nl text = false ->
  exists f t,
    _parseMessage (first +:+ NL +:+ (X_Zope_To +:+ text) +:+ NL +:+ rest)
    = inr (f, t, rest) /\
    t <> [] /\
    Py.join ", " t = text /\
    (text = EmptyString -> t = [EmptyString]).
Proof.
  intros Hf Ht. unfold _parseMessage. rewrite split_NL_2.
  assert (H2 : Py.contains_char nl (X_Zope_To +:+ text) = false)
    by (rewrite contains_char_app, Ht; reflexivity).
  rewrite (partition_NL_app _ _ Hf), (partition_NL_app _ _ H2).
  cbn [unpack3]. unfold Py.startswith at 2. rewrite prefix_app, drop_app.
  eexists _, _. split; [reflexivity|]. unfold Py.split.
  split; [apply split_fuel_nonempty|].
  split; [apply join_split_fuel|]. now intros ->.
Qed.

Lemma recipients_header_is_kept_witness :
  exists f t,
    _parseMessage ("X-Zope-From: a@x" +:+ NL +:+ (X_Zope_To +:+ "") +:+ NL +:+
                   "hello")
    = inr (f, t, "hello") /\
    t <> [] /\ Py.join ", " t = "" /\ ("" = EmptyString -> t = [EmptyString]).
Proof.
  apply (recipients_header_is_kept "X-Zope-From: a@x" "" "hello");
    vm_compute; reflexivity.
Defined.

(** X2.  Parsing loses nothing of a message that carries both markers:
    when the message begins with the sender marker and parsing found
    recipients, the message is the sender line, the recipients line
    with the recipients joined by [", "], and the body, byte for
    byte. *)
Theorem parsed_header_rebuilds_message
        (message f : string) (t : list string) (b : string) :
  _parseMessage message = inr (f, t, b) ->
  Py.startswith message X_Zope_From = true ->
  t <> [] ->
  message
  = (X_Zope_From +:+ f) +:+ NL +:+ (X_Zope_To +:+ Py.join ", " t) +:+ NL +:+ b.
Proof.
  unfold _parseMessage. rewrite split_NL_2. intros H Hfrom Ht.
  destruct (Py.partition NL message) as [[first r]|] eqn:H1;
    [|cbn in H; congruence].
  destruct (Py.partition NL r) as [[second rest]|] eqn:H2;
    [|cbn in H; congruence].
  apply partition_NL_some in H1 as [-> Hfirst].
  apply partition_NL_some in H2 as [-> Hsecond].
  assert (Hnl : Py.contains_char nl X_Zope_From = false) by reflexivity.
  pose proof (prefix_before_newline X_Zope_From first _ Hnl Hfrom) as Hp.
  cbn [unpack3] in H. unfold Py.startswith in H. rewrite Hp in H.
  destruct (String.prefix X_Zope_To second) eqn:Hto;
    [|injection H as _ <- _; congruence].
  assert (Hf : f = Py.drop (String.length X_Zope_From) first) by congruence.
  assert (Hb : b = rest) by congruence.
  assert (Htt : t = Py.split ", " None
                      (Py.drop (String.length X_Zope_To) second))
    by congruence.
  rewrite Hf, Hb, Htt. unfold Py.split. rewrite join_split_fuel.
  rewrite <- (prefix_drop _ _ Hp). now rewrite <- (prefix_drop _ _ Hto).
Qed.

Lemma parsed_header_rebuilds_message_witness :
  "X-Zope-From: a@x" +:+ NL +:+ "X-Zope-To: b@x, c@x" +:+ NL +:+ "hello"
  = (X_Zope_From +:+ "a@x") +:+ NL +:+
    (X_Zope_To +:+ Py.join ", " ["b@x"; "c@x"]) +:+ NL +:+ "hello".
Proof.
  apply (parsed_header_rebuilds_message _ "a@x" ["b@x"; "c@x"] "hello");
    [vm_compute; reflexivity | vm_compute; reflexivity | discriminate].
Defined.

(* ================================================================== *)
(** * [_send_message] once the lock is taken *)
(* ================================================================== *)

Ltac parse_total :=
  match goal with
  | H : _parseMessage ?m = inl _ |- _ =>
      destruct (parseMessage_returns m) as (? & ? & ? & ?); congruence
  end.

Ltac settle_permanent :=
  repeat match goal with
    | H : (_ && _) = _ |- context [is_permanent (SMTPResponseException _ _)] =>
        cbn [is_permanent]; rewrite H
    | |- context [is_permanent _] => progress cbn [is_permanent]
    end.

Ltac trace_solve :=
  repeat first
    [ progress intros
    | progress (lazy beta iota)
    | eassumption
    | reflexivity
    | discriminate
    | names_clash
    | progress simplify_eq
    | match goal with
      | H : _ \/ _ |- _ => destruct H
      | H : (?x =? ?x) = false |- _ => rewrite Z.eqb_refl in H
      | H : (?x =? ?y) = _ |- context [?x =? ?y] => rewrite H
      | |- context [tolerated _] => progress cbn [tolerated]
      | |- context [is_permanent _] => progress settle_permanent
      | |- _ /\ _ => split
      | |- exists _, _ => eexists
      end ].

(** Once the lock is taken: the read of the message, the call of the
    mailer and what follows. *)
Lemma lock_taken_trace (F : string) tr o l :
  exec (_send_message F fresh_locals) tr (o, l) ->
  In (EvLink F (tmp_filename_of F) (inr tt)) tr ->
  o = Normal tt /\
  exists pre r post,
    tr = pre ++ EvLink F (tmp_filename_of F) (inr tt) :: EvRead F r :: post /\
    Forall (reclaim_event (tmp_filename_of F)) pre /\
    after_read F r l post.
Proof.
  intros H Hin. exec_all H; in_cases Hin; try names_clash; try parse_total;
    destruct_units;
    (split; [reflexivity|]);
    find_prefix ltac:(eexists _, _; split; [cbn [app]; reflexivity|]);
    (split; [repeat constructor|]);
    unfold after_read, after_send, finalize_shape; trace_solve.
Qed.

(** Reading the message, calling the mailer, unlinking the message file
    and linking the quarantine name all come after the lock is taken. *)
Lemma lock_precedes (F : string) tr o l ev :
  exec (_send_message F fresh_locals) tr (o, l) ->
  In ev tr -> needs_lock F ev ->
  In (EvLink F (tmp_filename_of F) (inr tt)) tr.
Proof.
  intros H Hin Hneed. exec_all H; in_cases Hin; cbn [needs_lock] in Hneed;
    try contradiction; try names_clash; destruct_units; cbn [In]; auto 12.
Qed.

Lemma finalize_release (F f : string) (t : list string) post :
  finalize_shape F (tmp_filename_of F) f t post ->
  Forall (release_event F) post.
Proof.
  intros (r1 & post1 & -> & H). constructor; [left; reflexivity|].
  destruct (tolerated r1).
  - destruct H as (r2 & post2 & -> & H). constructor; [right; reflexivity|].
    destruct (tolerated r2); [subst; repeat constructor|].
    destruct H as (e2 & _ & ->). repeat constructor.
  - destruct H as (e1 & _ & ->). repeat constructor.
Qed.

Lemma release_not_send (F : string) post :
  Forall (release_event F) post -> Forall (fun ev => is_send ev = false) post.
Proof.
  apply List.Forall_impl. intros [] H; cbn in H |- *; auto; contradiction.
Qed.

Lemma after_send_not_send (F f : string) (t : list string) rs post :
  after_send F f t rs post -> Forall (fun ev => is_send ev = false) post.
Proof.
  unfold after_send. destruct rs as [e|[]].
  - destruct (is_permanent e).
    + intros (r & post' & -> & H). do 2 (constructor; [reflexivity|]).
      destruct r as [e'|[]]; [subst; repeat constructor|].
      eapply release_not_send, finalize_release, H.
    + intros ->. repeat constructor.
  - intros H. eapply release_not_send, finalize_release, H.
Qed.

Lemma reclaim_not_send (T : string) pre :
  Forall (reclaim_event T) pre -> Forall (fun ev => is_send ev = false) pre.
Proof.
  apply List.Forall_impl. intros [] H; cbn in H |- *; auto; contradiction.
Qed.

Lemma not_send_in (l : list event) f t b r :
  Forall (fun ev => is_send ev = false) l -> ~ In (EvSend f t b r) l.
Proof.
  intros Hall Hin. apply (proj1 (List.Forall_forall _ _) Hall) in Hin.
  discriminate Hin.
Qed.

(** A run that calls the mailer: what comes before the call and what
    comes after it. *)
Lemma mailer_call_trace (F : string) tr o l (f : string) (t : list string)
      (b : string) (rs : exn + unit) :
  exec (_send_message F fresh_locals) tr (o, l) ->
  In (EvSend f t b rs) tr ->
  o = Normal tt /\ l = Locals f t /\
  exists pre raw post,
    tr = pre ++ EvLink F (tmp_filename_of F) (inr tt) :: EvRead F (inr raw) ::
                EvSend f t b rs :: post /\
    _parseMessage raw = inr (f, t, b) /\
    Forall (reclaim_event (tmp_filename_of F)) pre /\
    after_send F f t rs post.
Proof.
  intros H Hin.
  pose proof (lock_precedes F tr o l _ H Hin I) as Hlock.
  destruct (lock_taken_trace F tr o l H Hlock)
    as (-> & pre & rd & post & -> & Hpre & Hafter).
  split; [reflexivity|].
  apply in_app_or in Hin as [Hin | [Hin | [Hin | Hin]]];
    [destruct (not_send_in _ _ _ _ _ (reclaim_not_send _ _ Hpre) Hin)
    | discriminate Hin | discriminate Hin | ].
  destruct rd as [e|raw]; cbn [after_read] in Hafter.
  - destruct Hafter as [_ ->]. in_cases Hin.
  - destruct Hafter as (f0 & t0 & b0 & rs0 & post' & Hparse & -> & -> & Hpost).
    destruct Hin as [[= -> -> -> ->] | Hin];
      [|destruct (not_send_in _ _ _ _ _ (after_send_not_send _ _ _ _ _ Hpost)
                    Hin)].
    split; [reflexivity|]. exists pre, raw, post'. auto.
Qed.

(** X3.  The mailer is called at most once for a message, only after
    the hard link that takes the lock has been made and the message
    file has been read, and with the sender, the recipients and the
    body that [_parseMessage] finds in the bytes read. *)
Theorem mailer_called_once_under_lock
        (F : string) tr o l (f : string) (t : list string) (b : string)
        (r : exn + unit) :
  exec (_send_message F fresh_locals) tr (o, l) ->
  In (EvSend f t b r) tr ->
  exists pre raw post,
    tr = pre ++ EvLink F (tmp_filename_of F) (inr tt) :: EvRead F (inr raw) ::
                EvSend f t b r :: post /\
    _parseMessage raw = inr (f, t, b) /\
    (forall f' t' b' r', ~ In (EvSend f' t' b' r') pre) /\
    (forall f' t' b' r', ~ In (EvSend f' t' b' r') post).
Proof.
  intros H Hin.
  destruct (mailer_call_trace F tr o l f t b r H Hin)
    as (_ & _ & pre & raw & post & -> & Hparse & Hpre & Hpost).
  exists pre, raw, post. split; [reflexivity|]. split; [exact Hparse|].
  split; intros; apply not_send_in;
    eauto using reclaim_not_send, after_send_not_send.
Qed.

Lemma mailer_called_once_under_lock_witness :
  let tr := snd (send_one (calm 1000) "q/cur/m1" one_message) in
  exists pre raw post,
    tr = pre ++ EvLink "q/cur/m1" (tmp_filename_of "q/cur/m1") (inr tt) ::
                EvRead "q/cur/m1" (inr raw) ::
                EvSend "a@x" ["b@x"; "c@x"] "hello" (inr tt) :: post /\
    _parseMessage raw = inr ("a@x", ["b@x"; "c@x"], "hello") /\
    (forall f' t' b' r', ~ In (EvSend f' t' b' r') pre) /\
    (forall f' t' b' r', ~ In (EvSend f' t' b' r') post).
Proof.
  intros tr. subst tr.
  destruct (send_one (calm 1000) "q/cur/m1" one_message)
    as [[[o l] w] tr] eqn:E.
  assert (Etr : snd (send_one (calm 1000) "q/cur/m1" one_message) = tr)
    by (rewrite E; reflexivity).
  cbn [snd].
  apply (mailer_called_once_under_lock "q/cur/m1" tr o l
           "a@x" ["b@x"; "c@x"] "hello" (inr tt)).
  - exact (run_exec _ _ _ _ _ _ E).
  - rewrite <- Etr. vm_compute. auto 10.
Defined.

(* ================================================================== *)
(** * [_send_message] on a filesystem *)
(* ================================================================== *)

Section Directory.
Context (env : environment) (F : string).
Local Notation "'T'" := (tmp_filename_of F) (only parsing).
Local Notation "'R'" := (rejected_filename_of F) (only parsing).

(** The final unlinks and the log records leave every other name
    alone. *)
Lemma release_keeps (p : string) (post : list event) (ns : gmap string nat) :
  Forall (release_event F) post -> p <> F -> p <> T ->
  names_after post ns !! p = ns !! p.
Proof.
  intros Hall HF HT. revert ns.
  induction Hall as [|ev post Hev _ IH]; intros ns; [reflexivity|].
  cbn [names_after fold_left]. fold (names_after post (apply_event ev ns)).
  rewrite IH. destruct ev; cbn in Hev |- *; try tauto; try reflexivity.
  destruct r; [reflexivity|]. rewrite lookup_delete_ne; [reflexivity|].
  destruct Hev; congruence.
Qed.

(** A name that was there and is gone was unlinked. *)
Lemma removed_by_unlink (p : string) (tr : list event) (ns : gmap string nat) :
  is_Some (ns !! p) -> names_after tr ns !! p = None ->
  In (EvUnlink p (inr tt)) tr.
Proof.
  revert ns. induction tr as [|ev tr IH]; intros ns [i Hi] Hgone.
  - cbn in Hgone. congruence.
  - cbn [names_after fold_left] in Hgone.
    fold (names_after tr (apply_event ev ns)) in Hgone.
    assert (Hstep : is_Some (apply_event ev ns !! p) ->
                    In (EvUnlink p (inr tt)) (ev :: tr))
      by (intros Hs; right; exact (IH _ Hs Hgone)).
    destruct ev; cbn [apply_event] in Hstep; eauto.
    + destruct r as [|[]]; eauto.
      destruct (decide (path = p)) as [->|Hp]; [now left|].
      apply Hstep. rewrite lookup_delete_ne by exact Hp. eauto.
    + destruct r; eauto. destruct (ns !! src); eauto.
      apply Hstep. destruct (decide (dst = p)) as [->|Hp].
      * rewrite lookup_insert_eq. eauto.
      * rewrite lookup_insert_ne by exact Hp. eauto.
Qed.

(** The directory once the lock is taken. *)
Lemma names_at_read (pre : list event) (r : exn + string) (post : list event)
      (ns : gmap string nat) cont :
  Forall (reclaim_event T) pre ->
  justified_trace env ns cont
    (pre ++ EvLink F T (inr tt) :: EvRead F r :: post) ->
  exists i,
    ns !! F = Some i /\
    names_after (pre ++ EvLink F T (inr tt) :: EvRead F r :: post) ns
    = names_after post (<[T := i]> (names_after pre ns)) /\
    <[T := i]> (names_after pre ns) !! F = Some i /\
    <[T := i]> (names_after pre ns) !! T = Some i /\
    (forall p, p <> T -> <[T := i]> (names_after pre ns) !! p = ns !! p) /\
    (forall raw, r = inr raw -> cont i = raw) /\
    justified_trace env (<[T := i]> (names_after pre ns)) cont post.
Proof.
  intros Hpre Hj. pose proof (tmp_ne_message F) as HTF.
  apply justified_trace_app in Hj as [_ Hj]. cbn [justified_trace] in Hj.
  destruct Hj as [[[i Hi] HT] [Hread Hpost]].
  cbn [apply_event] in Hread, Hpost. rewrite Hi in Hread, Hpost.
  assert (HF : <[T := i]> (names_after pre ns) !! F = Some i)
    by (now rewrite lookup_insert_ne).
  exists i. split; [|split; [|split; [exact HF|split; [|split; [|split]]]]].
  - rewrite <- Hi. symmetry. apply (reclaim_keeps T); [exact Hpre|].
    now apply not_eq_sym.
  - rewrite names_after_app. cbn [names_after fold_left apply_event].
    now rewrite Hi.
  - now rewrite lookup_insert_eq.
  - intros p Hp. rewrite lookup_insert_ne by (now apply not_eq_sym).
    apply (reclaim_keeps T); assumption.
  - intros raw ->. cbn [justified] in Hread.
    destruct Hread as (i' & Hi' & Hraw). congruence.
  - destruct r; exact Hpost.
Qed.

Lemma honest_not_injected : honest env -> ~ injected env (OSError ENOENT).
Proof. intros He [n Hn]. exact (He n Hn). Qed.

(** The directory after the final unlinks. *)
Lemma finalize_names (f : string) (t : list string) (post : list event)
      (ns : gmap string nat) cont (i : nat) :
  finalize_shape F T f t post ->
  justified_trace env ns cont post ->
  ns !! F = Some i -> ns !! T = Some i ->
  (forall p, p <> F -> p <> T -> names_after post ns !! p = ns !! p) /\
  (names_after post ns !! F = None \/
   names_after post ns !! F = Some i /\
   (names_after post ns !! T = Some i \/ injected env (OSError ENOENT))) /\
  ((forall n, fault env n = None) ->
   post = [EvUnlink F (inr tt); EvUnlink T (inr tt); EvLog (sent_record f t)] /\
   names_after post ns !! F = None /\ names_after post ns !! T = None).
Proof.
  intros Hshape Hj HF HT. pose proof (tmp_ne_message F) as HTF.
  split; [intros p HpF HpT; apply release_keeps;
          eauto using finalize_release|].
  destruct Hshape as (r1 & post1 & -> & Hshape).
  cbn [justified_trace] in Hj. destruct Hj as [Hu1 Hj].
  cbn [names_after fold_left].
  fold (names_after post1 (apply_event (EvUnlink F r1) ns)).
  destruct r1 as [e1|[]].
  - (* the unlink of the message file fails *)
    cbn [apply_event] in Hj |- *.
    assert (Hinj : tolerated (inl e1) = true -> injected env (OSError ENOENT)).
    { intros Htol. apply tolerated_cases in Htol as [Htol|Htol];
        [discriminate|]. injection Htol as ->.
      cbn [justified] in Hu1. destruct Hu1 as [Hinj | [_ Habs]];
        [exact Hinj | congruence]. }
    split.
    + right. destruct (tolerated (inl e1)) eqn:Htol.
      * destruct Hshape as (r2 & post2 & -> & Hshape).
        assert (Hlog : names_after post2 (apply_event (EvUnlink T r2) ns)
                       = apply_event (EvUnlink T r2) ns).
        { destruct (tolerated r2); [subst; reflexivity|].
          destruct Hshape as (e2 & _ & ->). reflexivity. }
        cbn [names_after fold_left].
        fold (names_after post2 (apply_event (EvUnlink T r2) ns)).
        rewrite Hlog. destruct r2 as [e2|[]]; cbn [apply_event].
        -- auto.
        -- rewrite lookup_delete_ne by exact HTF. auto.
      * destruct Hshape as (e & _ & ->). cbn. auto.
    + intros Hnone. exfalso.
      assert (inl e1 = @inr exn unit tt); [|discriminate].
      exact (unlink_present_succeeds env ns cont F _ Hnone
               (ex_intro _ i HF) Hu1).
  - (* the message file is removed *)
    cbn [tolerated] in Hshape. destruct Hshape as (r2 & post2 & -> & Hshape).
    cbn [apply_event] in Hj |- *. cbn [justified_trace] in Hj.
    destruct Hj as [Hu2 _].
    assert (Hlog : forall ns', names_after post2 ns' = ns').
    { intros ns'. destruct (tolerated r2); [subst; reflexivity|].
      destruct Hshape as (e2 & _ & ->). reflexivity. }
    cbn [names_after fold_left].
    fold (names_after post2 (apply_event (EvUnlink T r2) (delete F ns))).
    rewrite Hlog.
    assert (HF' : forall r, apply_event (EvUnlink T r) (delete F ns) !! F
                            = None).
    { intros [|[]]; cbn [apply_event];
        rewrite ?lookup_delete_ne by exact HTF; apply lookup_delete_eq. }
    split; [left; apply HF'|].
    intros Hnone.
    assert (r2 = inr tt) as ->.
    { apply (fun Hs => unlink_present_succeeds env _ cont T r2 Hnone Hs Hu2).
      exists i. now rewrite lookup_delete_ne by (now apply not_eq_sym). }
    cbn [tolerated] in Hshape. subst post2.
    split; [reflexivity|]. split; [apply HF'|].
    cbn [apply_event]. apply lookup_delete_eq.
Qed.

End Directory.

(** X4.  No message is lost.  If the message file is in the directory
    before a call of [_send_message] and gone after it, then the mailer
    was called with the sender, the recipients and the body of that
    very file, and either it accepted the message, or it refused it
    for good and the quarantine name now holds the file.  This holds
    whatever errors the operating system and the mailer raise. *)
Theorem message_never_lost (F : string) (env : environment) (w0 w1 : world)
        (o : outcome unit) (l : locals) (tr : list event) (i : nat) :
  send_one env F w0 = (o, l, w1, tr) ->
  names (fs w0) !! F = Some i ->
  names (fs w1) !! F = None ->
  exists f t b,
    _parseMessage (content (inode_at (fs w0) i)) = inr (f, t, b) /\
    (In (EvSend f t b (inr tt)) tr \/
     exists e, is_permanent e = true /\ In (EvSend f t b (inl e)) tr /\
               names (fs w1) !! rejected_filename_of F = Some i).
Proof.
  intros Hrun HF0 HF1. unfold send_one in Hrun.
  pose proof (run_exec _ _ _ _ _ _ Hrun) as H.
  apply os_run in Hrun as (Hn & Hj & _).
  assert (Hun : In (EvUnlink F (inr tt)) tr).
  { apply (removed_by_unlink F tr (names (fs w0))); [eauto|].
    now rewrite <- Hn. }
  pose proof (lock_precedes F tr o l _ H Hun eq_refl) as Hlock.
  destruct (lock_taken_trace F tr o l H Hlock)
    as (-> & pre & rd & post & -> & Hpre & Hafter).
  destruct (names_at_read env F pre rd post _ _ Hpre Hj)
    as (i' & Hi' & Hnames & HF & HT & Hother & Hraw & Hjpost).
  assert (i' = i) as -> by congruence.
  rewrite Hnames in Hn. clear Hnames Hj.
  set (ns1 := <[tmp_filename_of F := i]> (names_after pre (names (fs w0))))
    in *.
  destruct rd as [e|raw]; cbn [after_read] in Hafter.
  { destruct Hafter as [_ ->]. cbn [names_after fold_left apply_event] in Hn.
    congruence. }
  destruct Hafter as (f & t & b & rs & post' & Hparse & -> & -> & Hpost).
  exists f, t, b. rewrite <- (Hraw raw eq_refl) in Hparse.
  split; [exact Hparse|].
  cbn [justified_trace apply_event] in Hjpost. destruct Hjpost as [_ Hjpost].
  cbn [names_after fold_left apply_event] in Hn.
  fold (names_after post' ns1) in Hn.
  destruct rs as [e|[]]; cbn [after_send] in Hpost;
    [|left; apply in_or_app; right; cbn [In]; auto].
  destruct (is_permanent e) eqn:Hperm;
    [|subst post'; cbn [names_after fold_left apply_event] in Hn; congruence].
  right. exists e. split; [exact Hperm|].
  split; [apply in_or_app; right; cbn [In]; auto|].
  destruct Hpost as (r & post'' & -> & Hpost).
  cbn [justified_trace apply_event] in Hjpost.
  destruct Hjpost as [_ [Hlink Hjpost]].
  cbn [names_after fold_left apply_event] in Hn.
  destruct r as [e'|[]];
    [subst post''; cbn [names_after fold_left apply_event] in Hn; congruence|].
  rewrite HF in Hjpost, Hn.
  fold (names_after post'' (<[rejected_filename_of F := i]> ns1)) in Hn.
  pose proof (rejected_ne_message F) as HRF.
  pose proof (tmp_ne_rejected F) as HTR.
  destruct (finalize_names env F f t post'' _ _ i Hpost Hjpost)
    as (Hkeep & _ & _).
  - now rewrite lookup_insert_ne.
  - rewrite lookup_insert_ne by (now apply not_eq_sym). exact HT.
  - rewrite Hn, Hkeep by (try assumption; now apply not_eq_sym).
    apply lookup_insert_eq.
Qed.

Lemma message_never_lost_witness :
  let env := mailer_fails (SMTPResponseException 550 "no such user") 1000 in
  let w1 := snd (fst (send_one env "q/cur/m1" one_message)) in
  let tr := snd (send_one env "q/cur/m1" one_message) in
  exists f t b,
    _parseMessage (content (inode_at (fs one_message) 1)) = inr (f, t, b) /\
    (In (EvSend f t b (inr tt)) tr \/
     exists e, is_permanent e = true /\ In (EvSend f t b (inl e)) tr /\
               names (fs w1) !! rejected_filename_of "q/cur/m1" = Some 1%nat).
Proof.
  intros env w1 tr. subst w1 tr.
  destruct (send_one env "q/cur/m1" one_message) as [[[o l] w] tr] eqn:E.
  assert (Ew : snd (fst (send_one env "q/cur/m1" one_message)) = w)
    by (rewrite E; reflexivity).
  apply (message_never_lost "q/cur/m1" env one_message w o l tr 1 E).
  - vm_compute. reflexivity.
  - rewrite <- Ew. vm_compute. reflexivity.
Defined.

(** X5.  A failed attempt keeps the lock.  If [_send_message] took the
    lock and the message file is still in the directory when it is
    done, then the tmp file is still there too, a hard link to the
    message file, so that other workers and later passes skip the
    message until the tmp file is older than [MAX_SEND_TIME].  (The
    operating system is assumed to report a missing file only when it
    is missing.) *)
Theorem lock_outlives_failed_attempt
        (F : string) (env : environment) (w0 w1 : world)
        (o : outcome unit) (l : locals) (tr : list event) :
  send_one env F w0 = (o, l, w1, tr) ->
  honest env ->
  In (EvLink F (tmp_filename_of F) (inr tt)) tr ->
  is_Some (names (fs w1) !! F) ->
  exists i,
    names (fs w0) !! F = Some i /\
    names (fs w1) !! F = Some i /\
    names (fs w1) !! tmp_filename_of F = Some i.
Proof.
  intros Hrun He Hlock [j HF1]. unfold send_one in Hrun.
  pose proof (run_exec _ _ _ _ _ _ Hrun) as H.
  apply os_run in Hrun as (Hn & Hj & _).
  destruct (lock_taken_trace F tr o l H Hlock)
    as (-> & pre & rd & post & -> & Hpre & Hafter).
  destruct (names_at_read env F pre rd post _ _ Hpre Hj)
    as (i & Hi & Hnames & HF & HT & Hother & Hraw & Hjpost).
  rewrite Hnames in Hn. clear Hnames Hj.
  set (ns1 := <[tmp_filename_of F := i]> (names_after pre (names (fs w0))))
    in *.
  exists i. split; [exact Hi|]. rewrite Hn in HF1 |- *. clear Hn.
  pose proof (honest_not_injected env He) as Hinj.
  assert (Hfin : forall ns post',
             ns !! F = Some i -> ns !! tmp_filename_of F = Some i ->
             finalize_shape F (tmp_filename_of F) (fromaddr l) (toaddrs l)
                            post' ->
             justified_trace env ns (fun i => content (inode_at (fs w0) i))
                             post' ->
             names_after post' ns !! F = Some j ->
             names_after post' ns !! F = Some i /\
             names_after post' ns !! tmp_filename_of F = Some i).
  { intros ns post' HFn HTn Hshape Hjp Hj'.
    destruct (finalize_names env F _ _ post' ns _ i Hshape Hjp HFn HTn)
      as (_ & [Hgone | [HFi [HTi | Hbad]]] & _);
      [congruence | auto | contradiction]. }
  destruct rd as [e|raw]; cbn [after_read] in Hafter.
  { destruct Hafter as [_ ->]. cbn [names_after fold_left apply_event]. auto. }
  destruct Hafter as (f & t & b & rs & post' & Hparse & -> & -> & Hpost).
  cbn [fromaddr toaddrs] in Hfin.
  cbn [justified_trace apply_event] in Hjpost. destruct Hjpost as [_ Hjpost].
  cbn [names_after fold_left apply_event] in HF1 |- *.
  fold (names_after post' ns1) in HF1 |- *.
  destruct rs as [e|[]]; cbn [after_send] in Hpost; [|now apply Hfin].
  destruct (is_permanent e);
    [|subst post'; cbn [names_after fold_left apply_event]; auto].
  destruct Hpost as (r & post'' & -> & Hpost).
  cbn [justified_trace apply_event] in Hjpost.
  destruct Hjpost as [_ [Hlink Hjpost]].
  cbn [names_after fold_left apply_event] in HF1 |- *.
  destruct r as [e'|[]];
    [subst post''; cbn [names_after fold_left apply_event]; auto|].
  rewrite HF in Hjpost, HF1 |- *.
  fold (names_after post'' (<[rejected_filename_of F := i]> ns1)) in HF1 |- *.
  pose proof (rejected_ne_message F) as HRF.
  pose proof (tmp_ne_rejected F) as HTR.
  apply Hfin; auto.
  - now rewrite lookup_insert_ne.
  - rewrite lookup_insert_ne by (now apply not_eq_sym). exact HT.
Qed.

Lemma lock_outlives_failed_attempt_witness :
  let env := mailer_fails (OtherException "socket.error") 1000 in
  let w1 := snd (fst (send_one env "q/cur/m1" one_message)) in
  exists i,
    names (fs one_message) !! "q/cur/m1" = Some i /\
    names (fs w1) !! "q/cur/m1" = Some i /\
    names (fs w1) !! tmp_filename_of "q/cur/m1" = Some i.
Proof.
  intros env w1. subst w1.
  destruct (send_one env "q/cur/m1" one_message) as [[[o l] w] tr] eqn:E.
  assert (Ew : snd (fst (send_one env "q/cur/m1" one_message)) = w)
    by (rewrite E; reflexivity).
  assert (Etr : snd (send_one env "q/cur/m1" one_message) = tr)
    by (rewrite E; reflexivity).
  apply (lock_outlives_failed_attempt "q/cur/m1" env one_message w o l tr E).
  - intros n Hn. discriminate Hn.
  - rewrite <- Etr. vm_compute. auto 10.
  - rewrite <- Ew. vm_compute. eauto.
Defined.

(** X6.  Delivery.  When the mailer accepts the message and the
    operating system raises no error of its own, [_send_message]
    unlinks the message file, then the tmp file, logs the delivery at
    info level and returns normally; the message file and the tmp file
    are gone from the directory and every other name, the quarantine
    name included, is as it was. *)
Theorem accepted_message_leaves_queue
        (F f : string) (t : list string) (b : string)
        (env : environment) (w0 w1 : world)
        (o : outcome unit) (l : locals) (tr : list event) :
  send_one env F w0 = (o, l, w1, tr) ->
  In (EvSend f t b (inr tt)) tr ->
  (forall n, fault env n = None) ->
  o = Normal tt /\
  (exists pre,
     tr = pre ++ [EvSend f t b (inr tt); EvUnlink F (inr tt);
                  EvUnlink (tmp_filename_of F) (inr tt);
                  EvLog (sent_record f t)]) /\
  log_level (sent_record f t) = INFO /\
  names (fs w1) !! F = None /\
  names (fs w1) !! tmp_filename_of F = None /\
  (forall p, p <> F -> p <> tmp_filename_of F ->
             names (fs w1) !! p = names (fs w0) !! p).
Proof.
  intros Hrun Hin Hnone. unfold send_one in Hrun.
  pose proof (run_exec _ _ _ _ _ _ Hrun) as H.
  apply os_run in Hrun as (Hn & Hj & _).
  destruct (mailer_call_trace F tr o l f t b (inr tt) H Hin)
    as (-> & -> & pre & raw & post & -> & Hparse & Hpre & Hpost).
  destruct (names_at_read env F pre (inr raw) _ _ _ Hpre Hj)
    as (i & Hi & Hnames & HF & HT & Hother & Hraw & Hjpost).
  rewrite Hnames in Hn. clear Hnames Hj.
  set (ns1 := <[tmp_filename_of F := i]> (names_after pre (names (fs w0))))
    in *.
  cbn [justified_trace apply_event] in Hjpost. destruct Hjpost as [_ Hjpost].
  cbn [names_after fold_left apply_event] in Hn.
  fold (names_after post ns1) in Hn. cbn [after_send] in Hpost.
  destruct (finalize_names env F f t post ns1 _ i Hpost Hjpost HF HT)
    as (Hkeep & _ & Hok).
  destruct (Hok Hnone) as (-> & HF1 & HT1).
  split; [reflexivity|]. split.
  { exists (pre ++ [EvLink F (tmp_filename_of F) (inr tt);
                    EvRead F (inr raw)]).
    now rewrite <- app_assoc. }
  split; [reflexivity|]. rewrite Hn.
  split; [exact HF1|]. split; [exact HT1|].
  intros p HpF HpT. rewrite Hkeep by assumption. now apply Hother.
Qed.

Lemma accepted_message_leaves_queue_witness :
  let w1 := snd (fst (send_one (calm 1000) "q/cur/m1" one_message)) in
  names (fs w1) !! "q/cur/m1" = None /\
  names (fs w1) !! tmp_filename_of "q/cur/m1" = None.
Proof.
  intros w1. subst w1.
  destruct (send_one (calm 1000) "q/cur/m1" one_message)
    as [[[o l] w] tr] eqn:E.
  assert (Etr : snd (send_one (calm 1000) "q/cur/m1" one_message) = tr)
    by (rewrite E; reflexivity).
  cbn [fst snd].
  destruct (accepted_message_leaves_queue
              "q/cur/m1" "a@x" ["b@x"; "c@x"] "hello"
              (calm 1000) one_message w o l tr E)
    as (_ & _ & _ & HF & HT & _).
  - rewrite <- Etr. vm_compute. auto 10.
  - intros n. reflexivity.
  - auto.
Defined.

(* ================================================================== *)
(** * The ways [_send_message] ends, and the files it leaves alone *)
(* ================================================================== *)



Lemma send_message_own_calls (F : string) :
  all_calls (own_call F) (_send_message F fresh_locals).
Proof.
  unfold _send_message.
  repeat first
    [ progress (prog_norm; cbn [all_calls own_call])
    | progress intros
    | match goal with
      | |- True => exact I
      | |- _ /\ _ => split
      | |- _ = _ => reflexivity
      | |- _ \/ _ => first [left; reflexivity | right; reflexivity]
      | |- context [match ?x with _ => _ end] =>
          let y := innermost_scrutinee x in destruct y eqn:?
      end ].
Qed.

(** A property of the state that every call of a program keeps holds
    at the end of the run. *)
Lemma run_all_calls {W A} (h : handler W) (P : call -> Prop) (Inv : W -> Prop) :
  (forall c w, P c -> Inv w -> Inv (snd (h c w))) ->
  forall (p : prog A) (w : W),
    all_calls P p -> Inv w -> Inv (snd (fst (run h p w))).
Proof.
  intros Hstep. induction p as [a|c k IH]; intros w Hp Hw; [exact Hw|].
  destruct Hp as [Hc Hk]. cbn [run].
  specialize (Hstep c w Hc Hw). destruct (h c w) as [x w1].
  specialize (IH x w1 (Hk x) Hstep).
  destruct (run h (k x) w1) as [[a w2] tr]. exact IH.
Qed.

Lemma frame_step (env : environment) (F : string) (f0 : filesystem)
      (c : call) (w : world) :
  own_call F c -> frame_of F f0 (fs w) ->
  frame_of F f0 (fs (snd (os_handler env c w))).
Proof.
  pose proof (tmp_ne_message F) as HTF.
  pose proof (rejected_ne_message F) as HRF.
  destruct w as [f n]. cbn [fs]. intros Hc Hfr.
  pose proof Hfr as (Hother & Hmsg & Hcont & Hino).
  destruct c; cbn [own_call] in Hc; try contradiction;
    cbn [os_handler snd fs tick]; unfold faulty; cbn [fs tick];
    try exact Hfr;
    (destruct (fault env n); cbn [snd fs]; [exact Hfr|]).
  - (* os.stat *) exact Hfr.
  - (* os.unlink *)
    unfold fs_unlink. destruct (names f !! path) eqn:E; cbn [snd];
      [|exact Hfr].
    split; [|split; [|split]]; cbn [names inodes]; auto.
    + intros p HpF HpT HpR. rewrite lookup_delete_ne; [auto|].
      destruct Hc; congruence.
    + destruct Hc as [-> | ->].
      * now rewrite lookup_delete_ne.
      * left. apply lookup_delete_eq.
  - (* os.utime *)
    subst path. unfold fs_utime.
    destruct (names f !! F) as [i|] eqn:E; cbn [snd]; [|exact Hfr].
    split; [|split; [|split]]; cbn [names].
    + exact Hother.
    + rewrite E. exact Hmsg.
    + intros j. now rewrite inode_at_insert.
    + intros j Hj. cbn [inodes]. rewrite lookup_insert_ne; [auto|].
      destruct Hmsg as [Hmsg|Hmsg]; congruence.
  - (* os.link *)
    destruct Hc as [-> Hd]. unfold fs_link.
    destruct (names f !! F) as [i|] eqn:E; cbn [snd]; [|exact Hfr].
    destruct (names f !! dst) eqn:Ed; cbn [snd]; [exact Hfr|].
    split; [|split; [|split]]; cbn [names inodes]; auto.
    + intros p HpF HpT HpR. rewrite lookup_insert_ne; [auto|].
      destruct Hd; congruence.
    + rewrite lookup_insert_ne; [|destruct Hd; congruence].
      rewrite E. exact Hmsg.
  - (* open, read *) exact Hfr.
Qed.

(** X8.  A call of [_send_message] for one message leaves the rest of
    the maildir alone, whatever the operating system and the mailer
    answer: every name other than the message file, its tmp file and
    its quarantine name is as it was, the message file is as it was or
    removed, no file has had its bytes changed, and no inode but the
    message's own has changed at all (not even its modification
    time). *)
Theorem other_files_untouched (F : string) (env : environment) (w0 : world) :
  let w1 := snd (fst (send_one env F w0)) in
  (forall p, p <> F -> p <> tmp_filename_of F -> p <> rejected_filename_of F ->
             names (fs w1) !! p = names (fs w0) !! p) /\
  (names (fs w1) !! F = None \/ names (fs w1) !! F = names (fs w0) !! F) /\
  (forall j, content (inode_at (fs w1) j) = content (inode_at (fs w0) j)) /\
  (forall j, names (fs w0) !! F <> Some j ->
             inodes (fs w1) !! j = inodes (fs w0) !! j).
Proof.
  intros w1. subst w1. unfold send_one.
  apply (run_all_calls (os_handler env) (own_call F)
           (fun w => frame_of F (fs w0) (fs w))).
  - intros c w. apply frame_step.
  - apply send_message_own_calls.
  - repeat split; auto.
Qed.

(* ================================================================== *)
(** * A pass over the maildir *)
(* ================================================================== *)

Section Passes.

Lemma exec_all_calls {A} (P : call -> Prop) (Q : event -> Prop)
      (p : prog A) tr a :
  (forall c x, P c -> Q (observe c x)) ->
  all_calls P p -> exec p tr a -> Forall Q tr.
Proof.
  intros HPQ. revert tr. induction p as [a0|c k IH]; intros tr Hp H;
    cbn in Hp, H.
  - destruct H as [-> _]. constructor.
  - destruct Hp as [Hc Hk]. destruct H as (x & tr' & -> & H).
    constructor; [auto | eauto].
Qed.

Lemma send_message_events (F : string) tr r :
  exec (_send_message F fresh_locals) tr r ->
  Forall (fun ev => message_event ev = true) tr.
Proof.
  apply (exec_all_calls (own_call F)); [|apply send_message_own_calls].
  intros c x Hc. destruct c; cbn in Hc |- *; auto; contradiction.
Qed.

Lemma handles_nil : handles [] [].
Proof. exists []. split; [reflexivity | constructor]. Qed.

Lemma handles_cons (f : string) (handled : list string) t r tr :
  exec (_send_message f fresh_locals) t r -> handles handled tr ->
  handles (f :: handled) (EvStopped false :: t ++ tr).
Proof.
  intros Ht (trs & -> & Hall). exists (t :: trs).
  split; [reflexivity | constructor; eauto].
Qed.

(** The events of handling file names: those of [_send_message] and
    readings [False] of the stop flag. *)
Lemma handles_events (handled : list string) tr :
  handles handled tr ->
  Forall (fun ev => message_event ev = true \/ ev = EvStopped false) tr.
Proof.
  intros (trs & -> & Hall).
  induction Hall as [|f t handled trs [r Ht] _ IH]; [constructor|].
  cbn [map concat app]. constructor; [now right|].
  apply Forall_app. split; [|exact IH].
  eapply List.Forall_impl; [|exact (send_message_events _ _ _ Ht)].
  intros ev Hev. now left.
Qed.

(** The loop of a pass: it handles the file names in order until it
    reads the stop flag [True], and never raises. *)
Lemma send_messages_loop_trace (filenames : list string) tr o u :
  exec (send_messages_loop filenames tt) tr (o, u) ->
  o = Normal tt /\
  exists handled tr1 last,
    tr = tr1 ++ last /\ handles handled tr1 /\
    ((last = [] /\ handled = filenames) \/
     (last = [EvStopped true] /\
      exists rest, rest <> [] /\ filenames = handled ++ rest)).
Proof.
  revert tr. induction filenames as [|f rest IH]; intros tr H.
  - destruct H as [-> [= -> ->]]. split; [reflexivity|].
    exists [], [], []. split; [reflexivity|].
    split; [apply handles_nil | left; auto].
  - destruct H as (stopped & tr1 & -> & H).
    apply exec_prog_bind in H
      as (tr0 & tra & [o0 u0] & -> & [-> [= -> ->]] & H2).
    cbn [app observe]. destruct stopped.
    + destruct H2 as [-> [= -> ->]]. split; [reflexivity|].
      exists [], [], [EvStopped true]. split; [reflexivity|].
      split; [apply handles_nil|]. right. split; [reflexivity|].
      exists (f :: rest). split; [discriminate | reflexivity].
    + apply exec_prog_bind in H2 as (trb & trc & [ob ub] & -> & Hb & Hc).
      apply exec_prog_bind in Hb as (trd & tre & [od ld] & -> & Hd & He).
      assert (Hrest : exec (send_messages_loop rest tt) trc (o, u) /\ tre = []).
      { destruct (send_message_outcome _ _ _ _ Hd) as [-> | ->];
          destruct He as [-> [= -> ->]]; auto. }
      destruct Hrest as [Hrest ->]. rewrite app_nil_r.
      apply IH in Hrest
        as [-> (handled & tr1 & last & -> & Hh & Hlast)].
      split; [reflexivity|].
      exists (f :: handled), (EvStopped false :: trd ++ tr1), last.
      split; [cbn [app]; now rewrite <- app_assoc|].
      split; [eapply handles_cons; eauto|].
      destruct Hlast as [[-> ->] | [-> (rest' & Hne & ->)]]; [left; auto|].
      right. split; [reflexivity|]. exists rest'. auto.
Qed.

(** A pass, as the daemon loop calls it. *)
Lemma send_messages_trace tr o u :
  exec (send_messages tt) tr (o, u) ->
  (exists e, tr = [EvIter (inl e)] /\ o = Raised e) \/
  (exists filenames handled tr1 last,
     o = Normal tt /\
     tr = EvIter (inr filenames) :: tr1 ++ last /\
     handles handled tr1 /\
     ((last = [] /\ handled = filenames) \/
      (last = [EvStopped true] /\
       exists rest, rest <> [] /\ filenames = handled ++ rest))).
Proof.
  intros (r & tr' & -> & H).
  apply exec_prog_bind in H as (tr0 & tra & [o0 u0] & -> & H0 & H1).
  destruct r as [e|filenames]; destruct H0 as [-> [= -> ->]]; cbn [app observe].
  - destruct H1 as [-> [= -> ->]]. left. eauto.
  - apply send_messages_loop_trace in H1
      as [-> (handled & tr1 & last & -> & Hh & Hlast)].
    right. exists filenames, handled, tr1, last. auto.
Qed.

End Passes.

(** X9.  A pass lists the maildir once and handles the file names in
    the order of the listing, reading the stop flag once before each
    of them; it ends when the listing is exhausted or at the first
    reading [True] of the flag, which is then its last event and
    leaves at least one file name unhandled.  The only exception that
    leaves [send_messages] is one raised by the listing itself, before
    any message is handled. *)
Theorem pass_stops_when_asked tr o u :
  exec (send_messages tt) tr (o, u) ->
  (exists e, tr = [EvIter (inl e)] /\ o = Raised e) \/
  (exists filenames handled tr1 last,
     o = Normal tt /\
     tr = EvIter (inr filenames) :: tr1 ++ last /\
     handles handled tr1 /\
     Forall (fun ev => message_event ev = true \/ ev = EvStopped false) tr1 /\
     ((last = [] /\ handled = filenames) \/
      (last = [EvStopped true] /\
       exists rest, rest <> [] /\ filenames = handled ++ rest))).
Proof.
  intros H. apply send_messages_trace in H
    as [H | (filenames & handled & tr1 & last & -> & -> & Hh & Hlast)];
    [left; exact H | right].
  exists filenames, handled, tr1, last.
  split; [reflexivity|]. split; [reflexivity|]. split; [exact Hh|].
  split; [exact (handles_events _ _ Hh) | exact Hlast].
Qed.

Lemma pass_stops_when_asked_witness :
  let env := stopping ["q/cur/m1"; "q/cur/m2"] 6 1000 in
  let tr := snd (run (os_handler env) (send_messages tt) one_message) in
  (exists e, tr = [EvIter (inl e)] /\ @Normal unit tt = Raised e) \/
  (exists filenames handled tr1 last,
     @Normal unit tt = Normal tt /\
     tr = EvIter (inr filenames) :: tr1 ++ last /\
     handles handled tr1 /\
     Forall (fun ev => message_event ev = true \/ ev = EvStopped false) tr1 /\
     ((last = [] /\ handled = filenames) \/
      (last = [EvStopped true] /\
       exists rest, rest <> [] /\ filenames = handled ++ rest))).
Proof.
  intros env tr. subst tr.
  destruct (run (os_handler env) (send_messages tt) one_message)
    as [[[o u] w] tr] eqn:E.
  assert (Eo : fst (fst (fst (run (os_handler env) (send_messages tt)
                                  one_message))) = o)
    by (rewrite E; reflexivity).
  vm_compute in Eo. subst o. cbn [snd].
  apply (pass_stops_when_asked tr (Normal tt) u).
  exact (run_exec _ _ _ _ _ _ E).
Defined.

(* ================================================================== *)
(** * How the daemon ends *)
(* ================================================================== *)

Section DaemonEnds.

Lemma passes_app (a b : list event) :
  passes (a ++ b) = (passes a + passes b)%nat.
Proof. unfold passes. now rewrite List.filter_app, List.length_app. Qed.

(** The events of handling file names hold no listing, no
    registration and no reading [True] of the stop flag. *)
Lemma handled_quiet (tr : list event) :
  Forall (fun ev => message_event ev = true \/ ev = EvStopped false) tr ->
  passes tr = 0%nat /\ ~ In EvAtexit tr /\ ~ In (EvStopped true) tr.
Proof.
  induction 1 as [|ev tr Hev _ (IH1 & IH2 & IH3)]; [cbn; auto|].
  change (ev :: tr) with ([ev] ++ tr). rewrite passes_app, IH1.
  split; [|split].
  - destruct Hev as [Hev | ->]; [|reflexivity]. now destruct ev.
  - intros [-> | Hin]; [|auto]. now destruct Hev.
  - intros [-> | Hin]; [|auto]. now destruct Hev.
Qed.

(** What the daemon loop relies on in a pass. *)
Lemma pass_facts tr o u :
  exec (invoke tt send_messages tt) tr (o, u) ->
  passes tr = 1%nat /\ ~ In EvAtexit tr /\
  ((exists e, o = Raised e /\ tr = [EvIter (inl e)]) \/
   (o = Normal tt /\
    exists l tr1, tr = EvIter (inr l) :: tr1 /\
      (~ In (EvStopped true) tr1 \/
       exists tr2, tr1 = tr2 ++ [EvStopped true] /\
                   ~ In (EvStopped true) tr2))).
Proof.
  intros H. apply exec_prog_bind in H as (tr1 & tr2 & [o1 u1] & -> & H1 & H2).
  apply send_messages_trace in H1
    as [(e & -> & ->) |
        (l & handled & tra & last & -> & -> & Hh & Hlast)];
    destruct H2 as [-> [= -> ->]]; rewrite app_nil_r.
  - split; [reflexivity|]. split; [|left; eauto].
    intros [Hin | []]. discriminate Hin.
  - apply handles_events, handled_quiet in Hh as (Hp & Hat & Hst).
    change (EvIter (inr l) :: tra ++ last)
      with ([EvIter (inr l)] ++ tra ++ last).
    rewrite !passes_app, Hp.
    destruct Hlast as [[-> _] | [-> _]]; rewrite ?app_nil_r.
    + split; [reflexivity|]. split.
      * intros [Hin | Hin]; [discriminate Hin | auto].
      * right. split; [reflexivity|]. eauto.
    + split; [reflexivity|]. split.
      * intros [Hin | Hin]; [discriminate Hin|].
        cbn [app] in Hin.
        apply in_app_or in Hin as [Hin | [Hin | []]]; [auto | discriminate Hin].
      * right. split; [reflexivity|]. exists l, (tra ++ [EvStopped true]).
        split; [reflexivity|]. right. eauto.
Qed.

(** How the daemon loop ends. *)
Lemma daemon_loop_ends (fuel : nat) (q : Q) :
  forall tr o u,
    exec (send_messages_daemon_loop fuel q tt) tr (o, u) ->
    ~ In EvAtexit tr /\ (passes tr <= fuel)%nat /\
    match o with
    | Normal (Some _) => exists pre, tr = pre ++ [EvStopped true]
    | Normal None => passes tr = fuel
    | Raised e => exists pre, tr = pre ++ [EvIter (inl e)]
    | Returned => False
    end.
Proof.
  induction fuel as [|fuel IH]; intros tr o u H.
  - destruct H as [-> [= -> ->]]. cbn. auto.
  - destruct H as (stopped & tr1 & -> & H).
    apply exec_prog_bind in H
      as (tr0 & tra & [o0 u0] & -> & [-> [= -> ->]] & H1).
    cbn [app observe]. destruct stopped.
    { destruct H1 as [-> [= -> ->]].
      split; [intros [Hin | []]; discriminate Hin|].
      split; [cbn; lia|]. now exists []. }
    apply exec_prog_bind in H1 as (trb & trc & [ob ub] & -> & Hb & Hc).
    destruct (pass_facts _ _ _ Hb) as (Hp & Hat & Hpass).
    change (EvStopped false :: trb ++ trc)
      with ([EvStopped false] ++ trb ++ trc).
    rewrite !passes_app, Hp.
    destruct Hpass as [(e & -> & ->) | (-> & _)].
    { destruct Hc as [-> [= -> ->]]. cbn.
      split; [intros [Hin | [Hin | []]]; discriminate Hin|].
      split; [lia|]. now exists [EvStopped false]. }
    assert (ub = tt) as -> by (now destruct ub).
    destruct Hc as (s2 & trd & -> & Hc).
    apply exec_prog_bind in Hc
      as (tr0 & tre & [o0 u0] & -> & [-> [= -> ->]] & Hd).
    cbn [app observe].
    apply exec_prog_bind in Hd as (trf & trg & [og ug] & -> & Hf & Hg).
    assert (Hsleep : og = Normal tt /\ ug = tt /\ passes trf = 0%nat /\
                     ~ In EvAtexit trf).
    { destruct s2; cbn [negb] in Hf.
      - destruct Hf as [-> [= -> ->]]. cbn. auto.
      - destruct Hf as ([] & ? & -> & [-> [= -> ->]]). cbn.
        repeat split; auto. intros [Hin | []]. discriminate Hin. }
    destruct Hsleep as (-> & -> & Hpf & Hatf).
    apply IH in Hg as (Hatg & Hpg & Hend).
    change (EvStopped s2 :: trf ++ trg) with ([EvStopped s2] ++ trf ++ trg).
    rewrite !passes_app, Hpf.
    split; [|split].
    + intros [Hin | Hin]; [discriminate Hin|].
      rewrite !List.in_app_iff in Hin. cbn [In] in Hin.
      destruct Hin as [Hin | [[Hin | []] | [Hin | Hin]]];
        [auto | discriminate Hin | auto | auto].
    + cbn. lia.
    + destruct o as [[[]|]|e|]; [| |
        |exact Hend].
      * destruct Hend as (pre & ->).
        exists ([EvStopped false] ++ trb ++ [EvStopped s2] ++ trf ++ pre).
        now rewrite <- !app_assoc.
      * cbn. lia.
      * destruct Hend as (pre & ->).
        exists ([EvStopped false] ++ trb ++ [EvStopped s2] ++ trf ++ pre).
        now rewrite <- !app_assoc.
Qed.

(** Where a list is cut in two, an element of it is in the first part
    or in the second. *)
Lemma cut_cases {A} (x : A) (pre post a b : list A) :
  pre ++ x :: post = a ++ b ->
  (exists mid, a = pre ++ x :: mid /\ post = mid ++ b) \/
  (exists mid, b = mid ++ x :: post /\ pre = a ++ mid).
Proof.
  revert a. induction pre as [|y pre IH]; intros a H.
  - destruct a as [|z a]; cbn in H.
    + right. exists []. auto.
    + injection H as <- ->. left. exists a. auto.
  - destruct a as [|z a]; cbn in H.
    + right. exists (y :: pre). auto.
    + injection H as <- H. apply IH in H as [(mid & -> & ->) | (mid & -> & ->)].
      * left. exists mid. auto.
      * right. exists mid. auto.
Qed.

(** A reading [True] of the stop flag in a pass is its last event. *)
Lemma pass_stop_is_last tr o u (pre mid : list event) :
  exec (invoke tt send_messages tt) tr (o, u) ->
  tr = pre ++ EvStopped true :: mid ->
  mid = [] /\ o = Normal tt.
Proof.
  intros H E. destruct (pass_facts _ _ _ H) as (_ & _ & Hpass).
  destruct Hpass as [(e & -> & ->) | (-> & l & tr1 & -> & Hlast)].
  - destruct pre as [|? [|? ?]]; discriminate E.
  - split; [|reflexivity].
    destruct pre as [|ev pre]; [discriminate E|]. injection E as _ E.
    destruct Hlast as [Hno | (tr2 & -> & Hno)].
    + exfalso. apply Hno. rewrite E. apply in_or_app. right. now left.
    + symmetry in E. apply cut_cases in E
        as [(m & -> & _) | (m & E & ->)].
      * exfalso. apply Hno. apply in_or_app. right. now left.
      * destruct m as [|? [|? ?]]; [|discriminate E|discriminate E].
        now injection E as <-.
Qed.

(** Once the stop flag reads [True] and goes on reading [True], the
    loop only reads the flag, at most twice more, and ends. *)
Lemma daemon_loop_stops (fuel : nat) (q : Q) :
  forall tr o u pre post,
    exec (send_messages_daemon_loop fuel q tt) tr (o, u) ->
    tr = pre ++ EvStopped true :: post ->
    (forall b, In (EvStopped b) post -> b = true) ->
    Forall (fun ev => ev = EvStopped true) post /\ (length post <= 2)%nat /\
    (o = Normal (Some tt) \/ o = Normal None).
Proof.
  assert (Hshort : forall fuel' tr o u,
             exec (send_messages_daemon_loop fuel' q tt) tr (o, u) ->
             (forall b, In (EvStopped b) tr -> b = true) ->
             Forall (fun ev => ev = EvStopped true) tr /\
             (length tr <= 1)%nat /\
             (o = Normal (Some tt) \/ o = Normal None)).
  { intros [|fuel'] tr o u H Hmono.
    - destruct H as [-> [= -> ->]]. cbn. auto.
    - destruct H as (stopped & tr1 & -> & H).
      assert (stopped = true) as -> by (apply Hmono; now left).
      apply exec_prog_bind in H
        as (tr0 & tra & [o0 u0] & -> & [-> [= -> ->]] & H1).
      destruct H1 as [-> [= -> ->]]. cbn. auto. }
  induction fuel as [|fuel IH]; intros tr o u pre post H E Hmono.
  - destruct H as [-> _]. now destruct pre.
  - destruct H as (stopped & tr1 & -> & H).
    apply exec_prog_bind in H
      as (tr0 & tra & [o0 u0] & -> & [-> [= -> ->]] & H1).
    cbn [app observe] in E. destruct stopped.
    { destruct H1 as [-> [= -> ->]].
      destruct pre as [|? [|? ?]]; try discriminate E.
      injection E as <-. cbn. auto. }
    destruct pre as [|ev pre]; [discriminate E|]. injection E as _ E.
    apply exec_prog_bind in H1 as (trb & trc & [ob ub] & -> & Hb & Hc).
    symmetry in E. apply cut_cases in E as [(m & E & ->) | (m & E & ->)].
    + (* the flag is read [True] in the pass *)
      destruct (pass_stop_is_last _ _ _ _ _ Hb E) as [-> ->].
      assert (ub = tt) as -> by (now destruct ub).
      cbn [app] in Hmono |- *.
      destruct Hc as (s2 & trd & -> & Hc).
      assert (s2 = true) as -> by (apply Hmono; now left).
      apply exec_prog_bind in Hc
        as (tr0 & tre & [o0 u0] & -> & [-> [= -> ->]] & Hd).
      cbn [app observe] in Hmono |- *.
      apply exec_prog_bind in Hd as (trf & trg & [og ug] & -> & Hf & Hg).
      destruct Hf as [-> [= -> ->]]. cbn [app] in Hmono |- *.
      apply Hshort in Hg as (Hall & Hlen & Ho);
        [|intros b Hin; apply Hmono; now right].
      split; [constructor; auto|]. split; [cbn; lia | exact Ho].
    + (* the flag is read [True] after the pass *)
      destruct (pass_facts _ _ _ Hb) as (_ & _ & Hpass).
      destruct Hpass as [(e & -> & ->) | (-> & _)].
      { destruct Hc as [-> _]. now destruct m. }
      assert (ub = tt) as -> by (now destruct ub).
      destruct Hc as (s2 & trd & -> & Hc).
      apply exec_prog_bind in Hc
        as (tr0 & tre & [o0 u0] & -> & [-> [= -> ->]] & Hd).
      cbn [app observe] in E.
      apply exec_prog_bind in Hd as (trf & trg & [og ug] & -> & Hf & Hg).
      destruct m as [|ev' m]; cbn [app] in E.
      * (* at the test of the sleep *)
        injection E as -> <-. destruct Hf as [-> [= -> ->]].
        cbn [app] in Hmono |- *.
        apply Hshort in Hg as (Hall & Hlen & Ho); [|exact Hmono].
        split; [exact Hall|]. split; [lia | exact Ho].
      * (* later *)
        injection E as _ E. destruct s2; cbn [negb] in Hf.
        -- destruct Hf as [-> [= -> ->]]. cbn [app] in E.
           exact (IH _ _ _ _ _ Hg E Hmono).
        -- destruct Hf as ([] & ? & -> & [-> [= -> ->]]).
           cbn [app observe] in E.
           destruct m as [|ev2 m]; [discriminate E|]. injection E as _ E.
           exact (IH _ _ _ _ _ Hg E Hmono).
Qed.

End DaemonEnds.

Section DaemonTrace.

(** How [send_messages_daemon] begins and ends. *)
Lemma daemon_trace (interval : option Q) (fuel : nat) tr o u :
  exec (send_messages_daemon interval fuel tt) tr (o, u) ->
  (exists tr', tr = EvAtexit :: tr' /\ ~ In EvAtexit tr') /\
  (passes tr <= fuel)%nat /\
  match o with
  | Normal (Some _) => exists pre, tr = pre ++ [EvStopped true]
  | Normal None => passes tr = fuel
  | Raised e => exists pre, tr = pre ++ [EvIter (inl e)]
  | Returned => False
  end.
Proof.
  intros (x & tr' & -> & H).
  apply exec_prog_bind in H
    as (tr0 & tra & [o0 u0] & -> & [-> [= -> ->]] & H1).
  cbn [app observe].
  apply daemon_loop_ends in H1 as (Hat & Hp & Hend).
  split; [eauto|]. split; [exact Hp|].
  destruct o as [[[]|]|e|]; auto; destruct Hend as (pre & ->);
    now exists (EvAtexit :: pre).
Qed.

End DaemonTrace.



(** X11.  The daemon stops promptly.  From a reading [True] of the
    stop flag after which the flag no longer reads [False], the daemon
    handles no further message, lists nothing, does not sleep: it
    reads the flag at most twice more and leaves its loop. *)
Theorem daemon_stops_promptly (interval : option Q) (fuel : nat)
        tr o u (pre post : list event) :
  exec (send_messages_daemon interval fuel tt) tr (o, u) ->
  tr = pre ++ EvStopped true :: post ->
  (forall b, In (EvStopped b) post -> b = true) ->
  Forall (fun ev => ev = EvStopped true) post /\ (length post <= 2)%nat /\
  (o = Normal (Some tt) \/ o = Normal None /\ passes tr = fuel).
Proof.
  intros H E Hmono.
  destruct (daemon_trace interval fuel tr o u H) as (_ & _ & Hend).
  destruct H as (x & tr' & -> & H).
  apply exec_prog_bind in H
    as (tr0 & tra & [o0 u0] & -> & [-> [= -> ->]] & H1).
  cbn [app observe] in E.
  destruct pre as [|ev pre]; [discriminate E|]. injection E as _ E.
  destruct (daemon_loop_stops _ _ _ _ _ _ _ H1 E Hmono) as (Hall & Hlen & Ho).
  split; [exact Hall|]. split; [exact Hlen|].
  destruct Ho as [-> | ->]; auto.
Qed.

Lemma daemon_stops_promptly_witness :
  let env := stopping ["q/cur/m1"] 6 1000 in
  let tr := snd (run (os_handler env) (send_messages_daemon None 5 tt)
                     one_message) in
  Forall (fun ev => ev = EvStopped true) (skipn 13 tr) /\
  (length (skipn 13 tr) <= 2)%nat /\
  (@Normal (option unit) (Some tt) = Normal (Some tt) \/
   @Normal (option unit) (Some tt) = Normal None /\ passes tr = 5%nat).
Proof.
  intros env tr. subst tr.
  destruct (run (os_handler env) (send_messages_daemon None 5 tt) one_message)
    as [[[o u] w] tr] eqn:E.
  assert (Eo : fst (fst (fst (run (os_handler env)
                                  (send_messages_daemon None 5 tt)
                                  one_message))) = o)
    by (rewrite E; reflexivity).
  assert (Etr : snd (run (os_handler env) (send_messages_daemon None 5 tt)
                         one_message) = tr)
    by (rewrite E; reflexivity).
  vm_compute in Eo. subst o. cbn [snd].
  apply (daemon_stops_promptly None 5 tr (Normal (Some tt)) u
           (firstn 12 tr) (skipn 13 tr)).
  - exact (run_exec _ _ _ _ _ _ E).
  - rewrite <- Etr. vm_compute. reflexivity.
  - rewrite <- Etr. vm_compute. intros b [[= <-] | []]. reflexivity.
Defined.

(* ================================================================== *)
(** * The daemon on a filesystem *)
(* ================================================================== *)

Section Termination.
Context (env : environment).


Context (N : nat) (q : Q).


End Termination.



(* ================================================================== *)
(** * The command line of [ConsoleApp] *)
(* ================================================================== *)

(** The cases of one turn of the loop of [_process_args]. *)
Ltac loop_cases H :=
  cbn [ConsoleApp._process_args_loop] in H;
  unfold ConsoleApp._error_usage in H;
  repeat match type of H with
    | context [if ?b then _ else _] => destruct b eqn:?
    | context [match ?x with _ => _ end] => destruct x eqn:?
    end.

Section Console.
Context {float_t : Type}.
Variable float : string -> exn + float_t.
Variable int : string -> exn + Z.

(** Induction for a loop that takes one or two elements off its list
    at a time. *)
Lemma pair_ind {A} (P : list A -> Prop) :
  P [] -> (forall a l, P l -> P (tl l) -> P (a :: l)) -> forall l, P l.
Proof.
  intros Hnil Hstep l. enough (P l /\ P (tl l)) by tauto.
  induction l as [|a l [IH1 IH2]]; cbn [tl]; auto.
Qed.

Lemma printed_app (a b : list string) :
  printed (a ++ b) = printed a || printed b.
Proof. destruct a; reflexivity. Qed.

Lemma reported_refl (self self' : @ConsoleApp.t float_t) stderr :
  ConsoleApp._error self' = ConsoleApp._error self ->
  reported self stderr self' stderr.
Proof.
  intros H. exists []. rewrite app_nil_r, H.
  now destruct (ConsoleApp._error self).
Qed.

Lemma reported_trans (s1 s2 s3 : @ConsoleApp.t float_t) e1 e2 e3 :
  reported s1 e1 s2 e2 -> reported s2 e2 s3 e3 -> reported s1 e1 s3 e3.
Proof.
  intros (o1 & -> & H1) (o2 & -> & H2). exists (o1 ++ o2).
  rewrite app_assoc, H2, H1, printed_app. split; [reflexivity|].
  now rewrite orb_assoc.
Qed.

Lemma reported_usage (self : @ConsoleApp.t float_t) stderr :
  reported self stderr
    (fst (ConsoleApp._error_usage self stderr))
    (snd (ConsoleApp._error_usage self stderr)).
Proof.
  exists [ConsoleApp._usage (ConsoleApp.script_name self)].
  split; [reflexivity|]. cbn. now rewrite orb_true_r.
Qed.

(** The loop sets the error flag exactly when it prints. *)
Lemma loop_reported (args : list string) :
  forall (self : @ConsoleApp.t float_t) stderr r self' stderr',
    ConsoleApp._process_args_loop float int args self stderr
    = (r, self', stderr') ->
    reported self stderr self' stderr'.
Proof.
  induction args as [|arg args IH1 IH2] using pair_ind;
    intros self stderr r self' stderr' H.
  - injection H as <- <- <-. now apply reported_refl.
  - loop_cases H; cbn [tl] in IH2;
      try (injection H as <- <- <-; apply reported_usage);
      (eapply reported_trans;
       [|first [eapply IH1; exact H | eapply IH2; exact H]]);
      first [apply reported_refl; reflexivity | apply reported_usage].
Qed.

(** The loop keeps the name of the script. *)
Lemma loop_script_name (args : list string) :
  forall (self : @ConsoleApp.t float_t) stderr r self' stderr',
    ConsoleApp._process_args_loop float int args self stderr
    = (r, self', stderr') ->
    ConsoleApp.script_name self' = ConsoleApp.script_name self.
Proof.
  induction args as [|arg args IH1 IH2] using pair_ind;
    intros self stderr r self' stderr' H.
  - now injection H as <- <- <-.
  - loop_cases H; cbn [tl] in IH2;
      try (now injection H as <- <- <-);
      first [apply IH1 in H | apply IH2 in H]; exact H.
Qed.

(** The queue path is an argument that does not begin with a dash. *)
Lemma loop_queue_path (args : list string) :
  forall (self : @ConsoleApp.t float_t) stderr r self' stderr',
    ConsoleApp._process_args_loop float int args self stderr
    = (r, self', stderr') ->
    ConsoleApp.queue_path self' = ConsoleApp.queue_path self \/
    exists path, ConsoleApp.queue_path self' = Some path /\ In path args /\
                 Py.startswith path "-" = false.
Proof.
  induction args as [|arg args IH1 IH2] using pair_ind;
    intros self stderr r self' stderr' H.
  - injection H as <- <- <-. now left.
  - loop_cases H; cbn [tl] in IH2;
      try (injection H as <- <- <-; now left);
      (first [apply IH1 in H | apply IH2 in H]);
      cbn [ConsoleApp.queue_path ConsoleApp.set_daemon ConsoleApp.set_interval
           ConsoleApp.set_hostname ConsoleApp.set_port ConsoleApp.set_username
           ConsoleApp.set_password ConsoleApp.set_force_tls
           ConsoleApp.set_no_tls ConsoleApp.set__error
           ConsoleApp.set_queue_path] in H;
      (destruct H as [H | (path & H & Hin & Hdash)];
       [|right; exists path; cbn [In]; auto]);
      try (left; exact H).
    right. exists arg. split; [exact H|]. split; [now left|].
    match goal with
    | E : (_ || _) = false |- _ => apply orb_false_elim in E as [E _]; exact E
    end.
Qed.



End Console.

(* ================================================================== *)
(** * What [ConsoleApp] runs *)
(* ================================================================== *)

Section ConsoleRuns.
Context {float_t : Type}.
Variable float : string -> exn + float_t.
Variable int : string -> exn + Z.

(** The two tests that follow the loop. *)
Lemma process_args_reported (args : list string)
      (self : @ConsoleApp.t float_t) stderr self' stderr' :
  ConsoleApp._process_args float int args self stderr
  = (inr tt, self', stderr') ->
  exists selfL stderrL,
    ConsoleApp._process_args_loop float int args self stderr
    = (inr tt, selfL, stderrL) /\
    reported selfL stderrL self' stderr' /\
    (ConsoleApp._error self' = false ->
     self' = selfL /\ truthy (ConsoleApp.queue_path selfL) = true /\
     truthy (ConsoleApp.username selfL) = false /\
     truthy (ConsoleApp.password selfL) = false) /\
    (truthy (ConsoleApp.username selfL) || truthy (ConsoleApp.password selfL)
     = true ->
     ConsoleApp._error self' = true /\
     exists out,
       stderr' = stderrL ++ out
                 ++ ["Must use username and password together."]).
Proof.
  unfold ConsoleApp._process_args.
  destruct (ConsoleApp._process_args_loop float int args self stderr)
    as [[[e|[]] selfL] stderrL] eqn:Hloop; [discriminate|].
  unfold ConsoleApp._error_usage, ConsoleApp.print_stderr.
  intros H. exists selfL, stderrL. split; [reflexivity|].
  destruct (truthy (ConsoleApp.queue_path selfL)) eqn:Hq;
    destruct (truthy (ConsoleApp.username selfL)) eqn:Hu;
    destruct (truthy (ConsoleApp.password selfL)) eqn:Hp;
    cbn in H; rewrite ?Hu, ?Hp in H; cbn in H;
    injection H as <- <-;
    (split; [|split]);
    try (intros; discriminate);
    try (intros _; split; [reflexivity|]);
    try (now eexists; split; [reflexivity | cbn; rewrite ?orb_true_r]);
    try (now exists []);
    try (now eexists [_]; rewrite <- app_assoc);
    try (apply reported_refl; reflexivity);
    try (now eexists; split;
         [rewrite <- app_assoc; reflexivity | cbn; rewrite ?orb_true_r]);
    auto.
Qed.

Lemma main_refuses (app : @ConsoleApp.t float_t) (fuel : nat) :
  ConsoleApp._error app = true -> ConsoleApp.main app fuel = None.
Proof. unfold ConsoleApp.main. now intros ->. Qed.

End ConsoleRuns.

(** X13.  A rejected command line is always explained, an accepted one
    is silent.  When [ConsoleApp(argv)] returns, its error flag is set
    exactly when it printed something to [sys.stderr]; with the flag
    set [main] does nothing.  With the flag clear nothing was printed,
    the queue path is one of the arguments, is not empty and does not
    begin with a dash, and [main] runs a [QueueProcessor] on
    [Maildir(queue_path, True)] with an [SMTPMailer] built from the
    parsed attributes: the daemon loop with [--daemon], one pass
    without. *)
Theorem rejected_command_line_is_reported
        {float_t : Type} (float : string -> exn + float_t)
        (int : string -> exn + Z) (argv stderr : list string)
        (app : @ConsoleApp.t float_t) (stderr' : list string) (fuel : nat) :
  ConsoleApp.__init__ float int argv stderr = (inr app, stderr') ->
  exists out,
    stderr' = stderr ++ out /\
    (ConsoleApp._error app = true ->
     out <> [] /\ ConsoleApp.main app fuel = None) /\
    (ConsoleApp._error app = false ->
     out = [] /\
     exists path,
       ConsoleApp.queue_path app = Some path /\ path <> EmptyString /\
       In path (tl argv) /\ Py.startswith path "-" = false /\
       ConsoleApp.main app fuel
       = Some ({| QueueProcessor.maildir := Some (Maildir_ path true);
                  QueueProcessor.mailer :=
                    Some (SMTPMailer_ (ConsoleApp.hostname app)
                            (ConsoleApp.port app) (ConsoleApp.username app)
                            (ConsoleApp.password app) (ConsoleApp.no_tls app)
                            (ConsoleApp.force_tls app)) |},
               if ConsoleApp.daemon app then send_messages_daemon None fuel
               else (send_messages;; mret (Some tt)))).
Proof.
  unfold ConsoleApp.__init__. destruct argv as [|script args]; [discriminate|].
  destruct (ConsoleApp._process_args float int args (ConsoleApp.new script)
              stderr) as [[[e|[]] self1] stderr1] eqn:Hargs; [discriminate|].
  intros [= -> ->].
  apply process_args_reported in Hargs
    as (selfL & stderrL & Hloop & Hrep & Hok & _).
  pose proof (loop_reported _ _ _ _ _ _ _ _ Hloop) as Hrep0.
  pose proof (loop_queue_path _ _ _ _ _ _ _ _ Hloop) as Hqp.
  destruct (reported_trans _ _ _ _ _ _ Hrep0 Hrep) as (out & -> & Herr).
  cbn [ConsoleApp._error ConsoleApp.new orb] in Herr.
  exists out. split; [reflexivity|]. split.
  - intros He. split; [|now apply main_refuses].
    rewrite He in Herr. now destruct out.
  - intros He. split; [rewrite He in Herr; now destruct out|].
    destruct (Hok He) as (-> & Hq & _).
    destruct Hqp as [Hqp | (path & Hqp & Hin & Hdash)];
      [rewrite Hqp in Hq; discriminate Hq|].
    exists path. split; [exact Hqp|]. rewrite Hqp in Hq.
    split; [intros ->; discriminate Hq|]. split; [exact Hin|].
    split; [exact Hdash|].
    unfold ConsoleApp.main, QueueProcessor.__init__. rewrite He, Hqp, Hq.
    reflexivity.
Qed.

Lemma rejected_command_line_is_reported_witness :
  exists app,
    ConsoleApp.__init__ float_of_example int_of_example
      ["qp"; "--daemon"; "--port"; "10"; "q/mail"] []
    = (inr app, []) /\
    ConsoleApp._error app = false /\
    exists out : list string,
      [] = [] ++ out /\
      (ConsoleApp._error app = true ->
       out <> [] /\ ConsoleApp.main app 2 = None) /\
      (ConsoleApp._error app = false ->
       out = [] /\
       exists path,
         ConsoleApp.queue_path app = Some path /\ path <> EmptyString /\
         In path ["--daemon"; "--port"; "10"; "q/mail"] /\
         Py.startswith path "-" = false /\
         ConsoleApp.main app 2
         = Some ({| QueueProcessor.maildir := Some (Maildir_ path true);
                    QueueProcessor.mailer :=
                      Some (SMTPMailer_ (ConsoleApp.hostname app)
                              (ConsoleApp.port app) (ConsoleApp.username app)
                              (ConsoleApp.password app)
                              (ConsoleApp.no_tls app)
                              (ConsoleApp.force_tls app)) |},
                 if ConsoleApp.daemon app then send_messages_daemon None 2
                 else (send_messages;; mret (Some tt)))).
Proof.
  eexists. split; [vm_compute; reflexivity|]. split; [reflexivity|].
  apply (rejected_command_line_is_reported float_of_example int_of_example
           ["qp"; "--daemon"; "--port"; "10"; "q/mail"] [] _ [] 2).
  vm_compute. reflexivity.
Defined.

(** X14.  SMTP credentials cannot be used.  Whenever the parsed
    username or the parsed password is not empty, and also when both
    are given, [ConsoleApp(argv)] prints that username and password
    must be used together and sets the error flag, so that [main]
    sends nothing. *)
Theorem credentials_are_always_refused
        {float_t : Type} (float : string -> exn + float_t)
        (int : string -> exn + Z) (argv stderr : list string)
        (app : @ConsoleApp.t float_t) (stderr' : list string) (fuel : nat) :
  ConsoleApp.__init__ float int argv stderr = (inr app, stderr') ->
  truthy (ConsoleApp.username app) || truthy (ConsoleApp.password app)
  = true ->
  ConsoleApp._error app = true /\
  (exists out,
     stderr' = stderr ++ out ++ ["Must use username and password together."]) /\
  ConsoleApp.main app fuel = None.
Proof.
  unfold ConsoleApp.__init__. destruct argv as [|script args]; [discriminate|].
  destruct (ConsoleApp._process_args float int args (ConsoleApp.new script)
              stderr) as [[[e|[]] self1] stderr1] eqn:Hargs; [discriminate|].
  intros [= -> ->] Hcred.
  assert (Hsame : forall self2 : @ConsoleApp.t float_t,
             ConsoleApp.username (ConsoleApp.set__error true self2)
             = ConsoleApp.username self2 /\
             ConsoleApp.password (ConsoleApp.set__error true self2)
             = ConsoleApp.password self2) by (intros; split; reflexivity).
  pose proof Hargs as Hargs'.
  apply process_args_reported in Hargs
    as (selfL & stderrL & Hloop & _ & _ & Hbad).
  assert (HL : truthy (ConsoleApp.username selfL)
               || truthy (ConsoleApp.password selfL) = true).
  { unfold ConsoleApp._process_args in Hargs'. rewrite Hloop in Hargs'.
    unfold ConsoleApp._error_usage in Hargs'.
    destruct (negb (truthy (ConsoleApp.queue_path selfL)));
      cbn [ConsoleApp.username ConsoleApp.password ConsoleApp.set__error]
        in Hargs';
      destruct (truthy (ConsoleApp.username selfL)
                || truthy (ConsoleApp.password selfL)
                   && negb (truthy (ConsoleApp.username selfL)
                            && truthy (ConsoleApp.password selfL)));
      injection Hargs' as <- _; exact Hcred. }
  destruct (Hbad HL) as (He & out & ->).
  pose proof (loop_reported _ _ _ _ _ _ _ _ Hloop) as (out0 & -> & _).
  split; [exact He|]. split; [|now apply main_refuses].
  exists (out0 ++ out). now rewrite <- !app_assoc.
Qed.

Lemma credentials_are_always_refused_witness :
  exists app stderr',
    ConsoleApp.__init__ float_of_example int_of_example
      ["qp"; "--username"; "u"; "--password"; "p"; "q/mail"] []
    = (inr app, stderr') /\
    ConsoleApp.username app = Some "u" /\
    ConsoleApp.password app = Some "p" /\
    ConsoleApp.queue_path app = Some "q/mail" /\
    ConsoleApp._error app = true /\
    (exists out,
       stderr' = [] ++ out ++ ["Must use username and password together."]) /\
    ConsoleApp.main app 2 = None.
Proof.
  eexists _, _. split; [vm_compute; reflexivity|].
  do 3 (split; [reflexivity|]).
  apply (credentials_are_always_refused float_of_example int_of_example
           ["qp"; "--username"; "u"; "--password"; "p"; "q/mail"] [] _ _ 2).
  - vm_compute. reflexivity.
  - reflexivity.
Defined.



(** X16.  The console application ignores [--interval].  In daemon
    mode [main] calls [send_messages_daemon] without an argument: what
    it runs does not depend on the [interval] attribute, and the loop
    sleeps the default 3.0 seconds between passes, whatever [--interval]
    said. *)
Theorem console_daemon_ignores_interval
        {float_t : Type} (app : @ConsoleApp.t float_t) (fuel : nat)
        (qp : QueueProcessor.t) (prog : M unit (option unit)) :
  ConsoleApp.main app fuel = Some (qp, prog) ->
  ConsoleApp.daemon app = true ->
  (forall x, ConsoleApp.main (ConsoleApp.set_interval x app) fuel
             = Some (qp, prog)) /\
  forall tr r, exec (prog tt) tr r -> well_slept default_interval tr.
Proof.
  unfold ConsoleApp.main. intros H Hd.
  split; [intros x; exact H|].
  destruct (ConsoleApp._error app); [discriminate|].
  rewrite Hd in H. injection H as _ <-.
  intros tr r (x & tr' & -> & H).
  apply exec_prog_bind in H
    as (tr0 & tra & [o0 u0] & -> & [-> [= -> ->]] & H1).
  cbn [List.app observe well_slept].
  eapply daemon_loop_well_slept. exact H1.
Qed.

Lemma console_daemon_ignores_interval_witness :
  exists app,
    ConsoleApp.__init__ float_of_example int_of_example
      ["qp"; "--daemon"; "--interval"; "10"; "q/mail"] []
    = (inr app, []) /\
    ConsoleApp.interval app = inr 10%Q /\
    (forall x, exists qp,
         ConsoleApp.main (ConsoleApp.set_interval x app) 2
         = Some (qp, send_messages_daemon None 2)) /\
    forall tr r, exec (send_messages_daemon None 2 tt) tr r ->
                 well_slept default_interval tr.
Proof.
  eexists. split; [vm_compute; reflexivity|]. split; [reflexivity|].
  match goal with
  | |- context [ConsoleApp.set_interval _ ?a] =>
      destruct (console_daemon_ignores_interval a 2 _ _ eq_refl eq_refl)
        as [Hmain Hsleep]
  end.
  split; [intros x; eexists; exact (Hmain x) | exact Hsleep].
Defined.
